(** * The Konami sequence controller

    A shallow embedding of [packages/controller/src/konami-controller.ts]:
    the [KonamiController] class, the part of its environment it talks to
    (the host's event target, the window's keydown listeners and the timer
    facility), and the properties of the key-sequence state machine. *)

From Stdlib Require Import ZArith List Bool Lia.
From stdpp Require Import base option list gmap strings.

Local Open Scope Z_scope.
Local Open Scope nat_scope.

(** ** Data *)

(** The three custom events of [KonamiControllerEvents]; only
    ['konami-progress'] carries a detail. *)
Inductive Notification :=
| KonamiActivated
| KonamiProgress (position total : nat)
| KonamiReset.

#[global] Instance Notification_eq_dec : EqDecision Notification.
Proof. solve_decision. Defined.

(** The two fields of a DOM [KeyboardEvent] the controller reads. *)
Record KeyboardEvent := mkKeyboardEvent {
  key : string;
  repeat : bool
}.

(** A JavaScript number as far as the [timeout] option goes: a whole
    number of milliseconds, or [NaN] (what the [Number] property of the
    reveal element holds for an attribute that is not numeric). Timeouts
    with a fractional part and infinite ones are not modelled. *)
Inductive JsNumber :=
| NaN
| Num (z : Z).

(** The constructor's [options] argument: both fields are optional. *)
Record Options := mkOptions {
  opt_code : option (list string);
  opt_timeout : option JsNumber
}.

(** The private fields of the class ([host] is a reference into the
    environment below). [timeoutRef] keeps the handle returned by the last
    [setTimeout], also after that timer was cleared or has fired. *)
Record KonamiController := mkKonamiController {
  code : list string;
  currentPosition : nat;
  timeout : Z;
  timeoutRef : option nat
}.

(** What the controller can observe or change outside itself. Only the
    timers armed by this controller are tracked: each of them carries the
    callback [() => this.reset()], so a pending timer is its handle and its
    deadline on the environment's clock; delays are whole milliseconds.
    The listeners the host runs on a dispatched event are taken not to call
    back into the controller, so a dispatch is an entry of the host's log. *)
Record Env := mkEnv {
  dispatched : list Notification;  (* host.dispatchEvent calls, oldest first *)
  updateRequests : nat;            (* host.requestUpdate calls *)
  controllers : nat;               (* host.addController calls *)
  keydownListener : bool;          (* handleKeydown is registered on window *)
  clock : Z;                       (* milliseconds *)
  nextTimerId : nat;               (* the handle the next setTimeout returns *)
  pendingTimers : gmap nat Z       (* handle -> deadline *)
}.

Record World := mkWorld {
  this : KonamiController;
  env : Env
}.

(** ** The environment's primitives *)

Definition dispatchEvent (n : Notification) (e : Env) : Env :=
  mkEnv (dispatched e ++ [n]) (updateRequests e) (controllers e)
        (keydownListener e) (clock e) (nextTimerId e) (pendingTimers e).

Definition requestUpdate (e : Env) : Env :=
  mkEnv (dispatched e) (S (updateRequests e)) (controllers e)
        (keydownListener e) (clock e) (nextTimerId e) (pendingTimers e).

(** Whether and when the host then calls [hostConnected] is the host's
    business: it is an event of the environment below. *)
Definition addController (e : Env) : Env :=
  mkEnv (dispatched e) (updateRequests e) (S (controllers e))
        (keydownListener e) (clock e) (nextTimerId e) (pendingTimers e).

(** [window.addEventListener('keydown', this.handleKeydown)]: the handler is
    one arrow function per instance, so registering it again adds nothing. *)
Definition addEventListener (e : Env) : Env :=
  mkEnv (dispatched e) (updateRequests e) (controllers e)
        true (clock e) (nextTimerId e) (pendingTimers e).

(** Removing a listener that is not registered is a no-op. *)
Definition removeEventListener (e : Env) : Env :=
  mkEnv (dispatched e) (updateRequests e) (controllers e)
        false (clock e) (nextTimerId e) (pendingTimers e).

(** The window's timer facility takes the delay as a signed 32-bit
    integer: the number wraps around modulo 2^32 into [-2^31, 2^31). *)
Definition toInt32 (z : Z) : Z :=
  ((z + 2147483648) mod 4294967296 - 2147483648)%Z.

(** The delay a timer is armed with: the 32-bit value, a negative one
    taken as 0. *)
Definition timerDelay (delay : Z) : Z := Z.max 0 (toInt32 delay).
Arguments timerDelay delay : simpl never.

(** [setTimeout(cb, delay)] returns a fresh handle and arms the timer. *)
Definition setTimeout (delay : Z) (e : Env) : nat * Env :=
  (nextTimerId e,
   mkEnv (dispatched e) (updateRequests e) (controllers e)
         (keydownListener e) (clock e) (S (nextTimerId e))
         (<[nextTimerId e := (clock e + timerDelay delay)%Z]>
            (pendingTimers e))).

(** [clearTimeout(h)] accepts [undefined] and handles of timers that are no
    longer pending; both do nothing. *)
Definition clearTimeout (h : option nat) (e : Env) : Env :=
  match h with
  | Some id =>
      mkEnv (dispatched e) (updateRequests e) (controllers e)
            (keydownListener e) (clock e) (nextTimerId e)
            (delete id (pendingTimers e))
  | None => e
  end.

(** The environment lets time pass. *)
Definition elapse (dt : Z) (e : Env) : Env :=
  mkEnv (dispatched e) (updateRequests e) (controllers e)
        (keydownListener e) (clock e + Z.max 0 dt)%Z (nextTimerId e)
        (pendingTimers e).

(** A timer that fires is no longer pending when its callback runs. *)
Definition expire (id : nat) (e : Env) : Env :=
  mkEnv (dispatched e) (updateRequests e) (controllers e)
        (keydownListener e) (clock e) (nextTimerId e)
        (delete id (pendingTimers e)).

(** ** Assignments to the controller's fields *)

Definition set_currentPosition (n : nat) (c : KonamiController) : KonamiController :=
  mkKonamiController (code c) n (timeout c) (timeoutRef c).

Definition set_timeoutRef (h : option nat) (c : KonamiController) : KonamiController :=
  mkKonamiController (code c) (currentPosition c) (timeout c) h.

Definition with_this (f : KonamiController -> KonamiController) (w : World) : World :=
  mkWorld (f (this w)) (env w).

Definition with_env (f : Env -> Env) (w : World) : World :=
  mkWorld (this w) (f (env w)).

(** ** Methods

    A call either completes normally or throws. A method runs statement by
    statement; [past] keeps every state the run went through, newest first,
    so that what holds in the middle of a handler can be stated. No
    primitive above throws and the class has no [throw] of its own. *)

Inductive Completion (A : Type) :=
| Normal (a : A)
| Throw (reason : string).
Arguments Normal {A} a.
Arguments Throw {A} reason.

Record Run := mkRun {
  cur : World;
  past : list World
}.

Definition Method := Run -> Completion Run.

Definition begin (w : World) : Run := mkRun w [].

(** One state-changing statement. *)
Definition stmt (f : World -> World) : Method :=
  fun r => Normal (mkRun (f (cur r)) (cur r :: past r)).

Definition skip : Method := fun r => Normal r.

Definition andThen (m1 m2 : Method) : Method :=
  fun r => match m1 r with
           | Normal r' => m2 r'
           | Throw reason => Throw reason
           end.

Declare Scope method_scope.
Delimit Scope method_scope with method.
Bind Scope method_scope with Method.
Notation "m1 ;; m2" := (andThen m1 m2)
  (at level 100, m2 at level 200, right associativity) : method_scope.
Local Open Scope method_scope.

(** Every state of a run, newest first. *)
Definition visited (r : Run) : list World := cur r :: past r.

(** A whole call, from a state between two events. *)
Definition run (m : Method) (w : World) : Completion World :=
  match m (begin w) with
  | Normal r => Normal (cur r)
  | Throw reason => Throw reason
  end.

(** The canonical ten-key sequence. *)
Definition defaultCode : list string :=
  ["ArrowUp"; "ArrowUp"; "ArrowDown"; "ArrowDown";
   "ArrowLeft"; "ArrowRight"; "ArrowLeft"; "ArrowRight"; "b"; "a"]%string.

(** [options?.code || [...]]: only an absent code is falsy, an array (also
    the empty one) is kept. *)
Definition code_or_default (options : option Options) : list string :=
  match options with
  | Some o => match opt_code o with
              | Some c => c
              | None => defaultCode
              end
  | None => defaultCode
  end.

(** [options?.timeout || 2000]: an absent timeout, [0] and [NaN] are
    falsy. *)
Definition timeout_or_default (options : option Options) : Z :=
  match options with
  | Some o => match opt_timeout o with
              | Some (Num t) => if (t =? 0)%Z then 2000%Z else t
              | Some NaN => 2000%Z
              | None => 2000%Z
              end
  | None => 2000%Z
  end.

(** [new KonamiController(host, options)]. The body has no [throw]. *)
Definition KonamiController_new (host : Env) (options : option Options)
  : Completion World :=
  Normal (mkWorld
            (mkKonamiController (code_or_default options) 0
                                (timeout_or_default options) None)
            (addController host)).

(** [emit(eventName, detail)] dispatches a [CustomEvent] on the host. *)
Definition emit (n : Notification) : Method :=
  stmt (with_env (dispatchEvent n)).

Definition hostConnected : Method :=
  stmt (with_env addEventListener).

Definition hostDisconnected : Method :=
  stmt (with_env removeEventListener) ;;
  stmt (fun w => with_env (clearTimeout (timeoutRef (this w))) w).

Definition reset : Method :=
  fun r =>
    let isPartial := 0 <? currentPosition (this (cur r)) in
    (stmt (with_this (set_currentPosition 0)) ;;
     stmt (fun w => with_env (clearTimeout (timeoutRef (this w))) w) ;;
     (if isPartial then emit KonamiReset else skip)) r.

(** [this.timeoutRef = setTimeout(() => this.reset(), this.timeout)]. *)
Definition armTimeout (w : World) : World :=
  let '(id, e) := setTimeout (timeout (this w)) (env w) in
  mkWorld (set_timeoutRef (Some id) (this w)) e.

Definition handleKeydown (e : KeyboardEvent) : Method :=
  fun r =>
    if repeat e then Normal r
    else
      let expected := code (this (cur r)) !! currentPosition (this (cur r)) in
      if bool_decide (Some (key e) ≠ expected) then reset r
      else
        (stmt (with_this (fun c => set_currentPosition (S (currentPosition c)) c)) ;;
         stmt (fun w => with_env (clearTimeout (timeoutRef (this w))) w) ;;
         stmt armTimeout ;;
         (fun r1 => emit (KonamiProgress (currentPosition (this (cur r1)))
                                         (length (code (this (cur r1))))) r1) ;;
         (fun r2 =>
            if currentPosition (this (cur r2)) =? length (code (this (cur r2)))
            then (emit KonamiActivated ;;
                  stmt (with_env requestUpdate) ;;
                  reset) r2
            else Normal r2)) r.

(** The public getters. *)
Definition progress (w : World) : nat := currentPosition (this w).
Definition total (w : World) : nat := length (code (this w)).
Definition nextExpectedKey (w : World) : option string :=
  code (this w) !! currentPosition (this w).

(** ** Events of the environment *)

Inductive Event :=
| Keydown (e : KeyboardEvent)   (* a keydown event dispatched on window *)
| Elapse (dt : Z)               (* time passes *)
| TimerFires (id : nat)         (* the timer facility runs a due timer *)
| HostConnected
| HostDisconnected.

Definition process (ev : Event) : Method :=
  match ev with
  | Keydown e =>
      fun r => if keydownListener (env (cur r)) then handleKeydown e r
               else Normal r
  | Elapse dt => stmt (with_env (elapse dt))
  | TimerFires id =>
      fun r => match pendingTimers (env (cur r)) !! id with
               | Some d =>
                   if bool_decide (d ≤ clock (env (cur r)))%Z
                   then (stmt (with_env (expire id)) ;; reset) r
                   else Normal r
               | None => Normal r
               end
  | HostConnected => hostConnected
  | HostDisconnected => hostDisconnected
  end.

Definition deliver (ev : Event) (w : World) : Completion World :=
  run (process ev) w.

Fixpoint deliverAll (evs : list Event) (w : World) : Completion World :=
  match evs with
  | [] => Normal w
  | ev :: evs' =>
      match deliver ev w with
      | Normal w' => deliverAll evs' w'
      | Throw reason => Throw reason
      end
  end.

(** A press of [k] that is not a repeat. *)
Definition press (k : string) : KeyboardEvent := mkKeyboardEvent k false.

(** Calling the handler once per key, in order. *)
Fixpoint feed (keys : list string) (w : World) : Completion World :=
  match keys with
  | [] => Normal w
  | k :: keys' =>
      match run (handleKeydown (press k)) w with
      | Normal w' => feed keys' w'
      | Throw reason => Throw reason
      end
  end.

(** An environment in which the controller has registered no listener and
    armed no timer yet. *)
Definition freshHost : Env := mkEnv [] 0 0 false 0%Z 1 ∅.

(** The states the program can be in between two events. *)
Inductive Reachable : World -> Prop :=
| Reachable_new host options w :
    keydownListener host = false ->
    pendingTimers host = ∅ ->
    KonamiController_new host options = Normal w ->
    Reachable w
| Reachable_deliver ev w w' :
    Reachable w ->
    deliver ev w = Normal w' ->
    Reachable w'.

(** ** Scenarios of the test suite *)

(** A controller built on a fresh host, then a series of events. *)
Definition scenario (options : option Options) (events : list Event)
  : Completion World :=
  match KonamiController_new freshHost options with
  | Normal w => deliverAll events w
  | Throw reason => Throw reason
  end.

(** The set-up of the test suite: the default code, a timeout of one
    second, the host connected. *)
Definition konami (events : list Event) : Completion World :=
  scenario (Some (mkOptions None (Some (Num 1000)))) (HostConnected :: events).

Definition log (c : Completion World) : list Notification :=
  match c with
  | Normal w => dispatched (env w)
  | Throw _ => []
  end.

(** A controller for the sequence [a, b] with a timeout of 500 ms, just
    connected. *)
Definition world_ab : World :=
  mkWorld (mkKonamiController ["a"; "b"]%string 0 500%Z None)
          (mkEnv [] 0 1 true 0%Z 1 ∅).

(** The same controller 400 ms after "a" was pressed: the timer armed then
    is pending. *)
Definition world_a_of_ab : World :=
  mkWorld (mkKonamiController ["a"; "b"]%string 1 500%Z (Some 1))
          (mkEnv [KonamiProgress 1 2] 0 1 true 400%Z 2 {[1 := 500%Z]}).

(** The same controller 501 ms after "a" was pressed: the timer is due. *)
Definition world_a_of_ab_late : World :=
  mkWorld (mkKonamiController ["a"; "b"]%string 1 500%Z (Some 1))
          (mkEnv [KonamiProgress 1 2] 0 1 true 501%Z 2 {[1 := 500%Z]}).



(** ** The invariant of the states between two events *)

Record Inv (w : World) : Prop := mkInv {
  (* the only timer that can be pending is the one [timeoutRef] names *)
  inv_owned : ∀ id d,
    pendingTimers (env w) !! id = Some d -> timeoutRef (this w) = Some id;
  (* handles are handed out in increasing order *)
  inv_fresh : ∀ id,
    timeoutRef (this w) = Some id -> id < nextTimerId (env w);
  (* a timer is pending only while a match is in progress *)
  inv_armed :
    pendingTimers (env w) ≠ ∅ -> 0 < currentPosition (this w);
  (* the cursor stays below the length (and at 0 for an empty code) *)
  inv_bound :
    currentPosition (this w) < Nat.max 1 (length (code (this w)));
  (* no timer is pending while the handler is not registered *)
  inv_detached :
    keydownListener (env w) = false -> pendingTimers (env w) = ∅
}.

(** ** The controller as its host sees it *)

(** A controller built on any host, then a series of events. *)
Definition scenarioOn (host : Env) (options : option Options)
           (events : list Event) : Completion World :=
  match KonamiController_new host options with
  | Normal w => deliverAll events w
  | Throw reason => Throw reason
  end.

(** What one event of the environment does to the controller and to what
    the host has received: nothing visible; one more key matched; the
    sequence completed; a match in progress abandoned. *)
Inductive Effect (w w' : World) : Prop :=
| Effect_quiet :
    currentPosition (this w') = currentPosition (this w) ->
    dispatched (env w') = dispatched (env w) ->
    updateRequests (env w') = updateRequests (env w) ->
    (∀ id d, pendingTimers (env w') !! id = Some d ->
             pendingTimers (env w) !! id = Some d) ->
    Effect w w'
| Effect_advance :
    S (currentPosition (this w)) < length (code (this w)) ->
    currentPosition (this w') = S (currentPosition (this w)) ->
    dispatched (env w')
    = dispatched (env w)
      ++ [KonamiProgress (S (currentPosition (this w)))
                         (length (code (this w)))] ->
    updateRequests (env w') = updateRequests (env w) ->
    pendingTimers (env w')
    = {[ nextTimerId (env w)
         := (clock (env w) + timerDelay (timeout (this w)))%Z ]} ->
    clock (env w') = clock (env w) ->
    Effect w w'
| Effect_complete :
    S (currentPosition (this w)) = length (code (this w)) ->
    currentPosition (this w') = 0 ->
    dispatched (env w')
    = dispatched (env w)
      ++ [KonamiProgress (length (code (this w))) (length (code (this w)));
          KonamiActivated; KonamiReset] ->
    updateRequests (env w') = S (updateRequests (env w)) ->
    pendingTimers (env w') = ∅ ->
    Effect w w'
| Effect_abandon :
    0 < currentPosition (this w) ->
    currentPosition (this w') = 0 ->
    dispatched (env w') = dispatched (env w) ++ [KonamiReset] ->
    updateRequests (env w') = updateRequests (env w) ->
    pendingTimers (env w') = ∅ ->
    Effect w w'.

(** The protocol a listener on the host can rely on, as an automaton over
    the notifications: while matching with [c] keys matched the next
    progress carries [c + 1] and the length; the progress that reaches the
    length is followed by the activation and then by a reset; any other
    reset ends a match in progress. *)
Inductive Phase :=
| Matching (c : nat)
| Completing
| Activating.

Definition follow (N : nat) (ph : Phase) (n : Notification) : option Phase :=
  match ph, n with
  | Matching c, KonamiProgress p t =>
      if (p =? S c) && (t =? N) && (p <=? N)
      then Some (if p =? N then Completing else Matching p)
      else None
  | Matching c, KonamiReset => if 0 <? c then Some (Matching 0) else None
  | Completing, KonamiActivated => Some Activating
  | Activating, KonamiReset => Some (Matching 0)
  | _, _ => None
  end.

Fixpoint replay (N : nat) (ph : Phase) (ns : list Notification)
  : option Phase :=
  match ns with
  | [] => Some ph
  | n :: ns' =>
      match follow N ph n with
      | Some ph' => replay N ph' ns'
      | None => None
      end
  end.

(** What a progress notification may carry for a sequence of length [N]. *)
Definition payload_ok (N : nat) (n : Notification) : Prop :=
  match n with
  | KonamiProgress p t => 1 ≤ p ∧ p ≤ t ∧ t = N
  | _ => True
  end.

(** The events by which the environment lets time pass and runs timers. *)
Definition is_time_event (ev : Event) : bool :=
  match ev with
  | Elapse _ | TimerFires _ => true
  | _ => false
  end.

(** The events of a list that are not key repeats. *)
Definition is_repeat (ev : Event) : bool :=
  match ev with
  | Keydown e => repeat e
  | _ => false
  end.

(** ** The reveal component

    [packages/components/src/konami-reveal.ts]: the element between
    [connectedCallback] and [disconnectedCallback], when its three listeners
    are registered on itself and it is the host of its controller. *)

Inductive EventName :=
| konami_activated
| konami_progress
| konami_reset.

#[global] Instance EventName_eq_dec : EqDecision EventName.
Proof. solve_decision. Defined.

(** What the listeners read of a DOM [CustomEvent]. *)
Record CustomEvent := mkCustomEvent {
  ev_name : EventName;
  ev_detail : option (nat * nat);   (* position, total *)
  ev_bubbles : bool;
  ev_composed : bool
}.

(** The event the controller's [emit] builds for a notification:
    [bubbles: false, composed: false]. *)
Definition customEvent (n : Notification) : CustomEvent :=
  match n with
  | KonamiActivated => mkCustomEvent konami_activated None false false
  | KonamiProgress p t => mkCustomEvent konami_progress (Some (p, t)) false false
  | KonamiReset => mkCustomEvent konami_reset None false false
  end.

(** The [activated] property and every event dispatched on the element so
    far, oldest first. *)
Record KonamiReveal := mkKonamiReveal {
  rv_activated : bool;
  rv_events : list CustomEvent
}.

(** The element's own [dispatchEvent], as the listeners see it. *)
Definition Dispatch := CustomEvent -> KonamiReveal -> option KonamiReveal.

Definition reveal_handleActivated (el : KonamiReveal) : KonamiReveal :=
  mkKonamiReveal true (rv_events el).

Definition reveal_handleProgress (dispatch : Dispatch) (e : CustomEvent)
           (el : KonamiReveal) : option KonamiReveal :=
  if negb (ev_composed e)
  then dispatch (mkCustomEvent konami_progress (ev_detail e) true true) el
  else Some el.

Definition reveal_handleReset (dispatch : Dispatch) (e : CustomEvent)
           (el : KonamiReveal) : option KonamiReveal :=
  if negb (ev_composed e)
  then dispatch (mkCustomEvent konami_reset None true true) el
  else Some el.

(** The public [reset()] of the element. *)
Definition reveal_reset (el : KonamiReveal) : KonamiReveal :=
  mkKonamiReveal false (rv_events el).

(** Dispatching an event on the element runs the listener registered for
    its name, which may dispatch again before it returns: [fuel] bounds the
    nesting, [None] means it ran out. *)
Fixpoint reveal_dispatchEvent (fuel : nat) (e : CustomEvent)
         (el : KonamiReveal) : option KonamiReveal :=
  match fuel with
  | 0 => None
  | S fuel' =>
      let el1 := mkKonamiReveal (rv_activated el) (rv_events el ++ [e]) in
      match ev_name e with
      | konami_activated => Some (reveal_handleActivated el1)
      | konami_progress =>
          reveal_handleProgress (reveal_dispatchEvent fuel') e el1
      | konami_reset =>
          reveal_handleReset (reveal_dispatchEvent fuel') e el1
      end
  end.

(** The element receives the notifications of its controller one by one. *)
Fixpoint reveal_receive (fuel : nat) (ns : list Notification)
         (el : KonamiReveal) : option KonamiReveal :=
  match ns with
  | [] => Some el
  | n :: ns' =>
      match reveal_dispatchEvent fuel (customEvent n) el with
      | Some el' => reveal_receive fuel ns' el'
      | None => None
      end
  end.

(** What the element dispatches again for a notification of its
    controller: a bubbling, composed copy of a progress or of a reset, and
    nothing for an activation. *)
Definition redispatched (n : Notification) : list CustomEvent :=
  match n with
  | KonamiActivated => []
  | KonamiProgress p t => [mkCustomEvent konami_progress (Some (p, t)) true true]
  | KonamiReset => [mkCustomEvent konami_reset None true true]
  end.

Definition is_activation (n : Notification) : bool :=
  match n with
  | KonamiActivated => true
  | _ => false
  end.

(** ** The demo component

    [konami-demo.ts]: the state the listeners of the demo element keep, and
    the feedback timers it arms on the window. Only the demo's own timers
    are tracked, so a counter of its own stands for the fresh handles the
    window hands out. *)

Record FeedbackTimer := mkFeedbackTimer {
  ft_type : string;    (* the [type] the callback closes over *)
  ft_delay : Z
}.

Record KonamiDemo := mkKonamiDemo {
  d_activated : bool;
  d_progress : nat;
  d_feedbackMessage : string;
  d_feedbackType : string;
  d_showFeedback : bool;
  d_containerState : string;
  d_feedbackTimeout : option nat;
  d_nextTimerId : nat;                     (* the handle the next setTimeout returns *)
  d_timers : gmap nat FeedbackTimer        (* the feedback timers still pending *)
}.

(** The field initialisers of the class. *)
Definition demo_new (nextId : nat) : KonamiDemo :=
  mkKonamiDemo false 0 "" "" false "normal" None nextId ∅.

Definition successMessage : string :=
  "ğŸ‰ SUCCESS! You unlocked the secret!".
Definition sorryMessage : string :=
  "Sorry! Sequence timed out or you pressed the wrong key.".

Definition demo_showTemporaryFeedback (message type : string)
           (d : KonamiDemo) : KonamiDemo :=
  let cleared := match d_feedbackTimeout d with
                 | Some h => delete h (d_timers d)
                 | None => d_timers d
                 end in
  mkKonamiDemo (d_activated d) (d_progress d) message type true type
               (Some (d_nextTimerId d)) (S (d_nextTimerId d))
               (<[d_nextTimerId d := mkFeedbackTimer type 2000%Z]> cleared).

(** The callback of a feedback timer, run by the window when it is due. *)
Definition demo_feedbackExpires (id : nat) (d : KonamiDemo) : KonamiDemo :=
  match d_timers d !! id with
  | Some t =>
      mkKonamiDemo (d_activated d) (d_progress d) (d_feedbackMessage d)
                   (d_feedbackType d) false
                   (if bool_decide (ft_type t ≠ "success"%string)
                    then "normal"%string else d_containerState d)
                   (d_feedbackTimeout d) (d_nextTimerId d)
                   (delete id (d_timers d))
  | None => d
  end.

Definition demo_handleActivated (d : KonamiDemo) : KonamiDemo :=
  demo_showTemporaryFeedback successMessage "success"
    (mkKonamiDemo true (d_progress d) (d_feedbackMessage d)
                  (d_feedbackType d) (d_showFeedback d) (d_containerState d)
                  (d_feedbackTimeout d) (d_nextTimerId d) (d_timers d)).

(** [handleProgress] reads [position] from the detail of the event. *)
Definition demo_handleProgress (position : nat) (d : KonamiDemo) : KonamiDemo :=
  if bool_decide (d_containerState d = "error"%string
                  ∨ d_containerState d = "timeout"%string)
  then mkKonamiDemo (d_activated d) position (d_feedbackMessage d)
                    (d_feedbackType d) false "normal"
                    (d_feedbackTimeout d) (d_nextTimerId d) (d_timers d)
  else mkKonamiDemo (d_activated d) position (d_feedbackMessage d)
                    (d_feedbackType d) (d_showFeedback d) (d_containerState d)
                    (d_feedbackTimeout d) (d_nextTimerId d) (d_timers d).

Definition demo_handleReset (d : KonamiDemo) : KonamiDemo :=
  let wasInProgress := 0 <? d_progress d in
  let d1 := mkKonamiDemo (d_activated d) 0 (d_feedbackMessage d)
                         (d_feedbackType d) (d_showFeedback d)
                         (d_containerState d) (d_feedbackTimeout d)
                         (d_nextTimerId d) (d_timers d) in
  if wasInProgress
  then demo_showTemporaryFeedback sorryMessage "timeout" d1
  else d1.

(** The private [reset()] behind the "Try Again" button. *)
Definition demo_reset (d : KonamiDemo) : KonamiDemo :=
  mkKonamiDemo false 0 "" (d_feedbackType d) false "normal"
               (d_feedbackTimeout d) (d_nextTimerId d) (d_timers d).

(** The listener the demo has registered for each notification of its
    controller. *)
Definition demo_listen (n : Notification) (d : KonamiDemo) : KonamiDemo :=
  match n with
  | KonamiActivated => demo_handleActivated d
  | KonamiProgress position _ => demo_handleProgress position d
  | KonamiReset => demo_handleReset d
  end.

Definition demo_receive (ns : list Notification) (d : KonamiDemo)
  : KonamiDemo :=
  fold_left (λ d n, demo_listen n d) ns d.

(** What can happen to the demo: a notification of its controller, a
    feedback timer running, a click on "Try Again". *)
Inductive DemoEvent :=
| Notified (n : Notification)
| FeedbackExpires (id : nat)
| TryAgain.

Definition demo_step (ev : DemoEvent) (d : KonamiDemo) : KonamiDemo :=
  match ev with
  | Notified n => demo_listen n d
  | FeedbackExpires id => demo_feedbackExpires id d
  | TryAgain => demo_reset d
  end.

Definition demo_run (evs : list DemoEvent) (d : KonamiDemo) : KonamiDemo :=
  fold_left (λ d ev, demo_step ev d) evs d.

(** What the demo keeps true of its feedback timers. *)
Record DemoInv (d : KonamiDemo) : Prop := mkDemoInv {
  (* the only feedback timer that can be pending is the one
     [feedbackTimeout] names, and it was armed for two seconds *)
  dinv_owned : ∀ id t,
    d_timers d !! id = Some t ->
    d_feedbackTimeout d = Some id ∧ ft_delay t = 2000%Z;
  (* a feedback that is shown has its timer pending *)
  dinv_shown :
    d_showFeedback d = true ->
    ∃ id t, d_feedbackTimeout d = Some id ∧ d_timers d !! id = Some t
}.

(** The cursor a listener attributes to the controller in each phase of
    the protocol. *)
Definition phase_position (N : nat) (ph : Phase) : nat :=
  match ph with
  | Matching c => c
  | Completing | Activating => N
  end.

(** ** The test suite, replayed *)

Example should_advance_on_correct_key :
  log (konami [Keydown (press "ArrowUp")]) = [KonamiProgress 1 10].
Proof. vm_compute. reflexivity. Qed.

Example should_reset_on_incorrect_key :
  log (konami [Keydown (press "ArrowUp"); Keydown (press "a")])
  = [KonamiProgress 1 10; KonamiReset].
Proof. vm_compute. reflexivity. Qed.

Example should_ignore_key_repeats :
  log (konami [Keydown (press "ArrowUp");
               Keydown (mkKeyboardEvent "ArrowUp" true)])
  = [KonamiProgress 1 10].
Proof. vm_compute. reflexivity. Qed.

Example should_reset_after_timeout :
  log (konami [Keydown (press "ArrowUp"); Elapse 1001; TimerFires 1])
  = [KonamiProgress 1 10; KonamiReset].
Proof. vm_compute. reflexivity. Qed.

Example should_not_reset_before_timeout :
  log (konami [Keydown (press "ArrowUp"); Elapse 900; TimerFires 1])
  = [KonamiProgress 1 10].
Proof. vm_compute. reflexivity. Qed.

Example should_clear_timeout_on_hostDisconnected :
  log (konami [Keydown (press "ArrowUp"); HostDisconnected;
               Elapse 2000; TimerFires 1])
  = [KonamiProgress 1 10].
Proof. vm_compute. reflexivity. Qed.

Example should_handle_doubled_inputs :
  match konami [Keydown (press "ArrowUp"); Keydown (press "ArrowUp")] with
  | Normal w => progress w = 2 ∧ nextExpectedKey w = Some "ArrowDown"%string
  | Throw _ => False
  end.
Proof. vm_compute. auto. Qed.

(** Teardown of a controller that was never connected. *)
Example teardown_before_any_attach :
  match KonamiController_new freshHost None with
  | Normal w => run hostDisconnected w = Normal w
  | Throw _ => False
  end.
Proof. vm_compute. reflexivity. Qed.

(** The key that completes [a, b] takes the handler through a state whose
    cursor equals the length, and ends with the cursor at 0. *)
Example completing_key_passes_through_the_length :
  match handleKeydown (press "b") (begin world_a_of_ab) with
  | Normal r => map progress (visited r) = [0; 0; 0; 2; 2; 2; 2; 2; 2; 1]
                ∧ progress (cur r) = 0
  | Throw _ => False
  end.
Proof. vm_compute. auto. Qed.

(** ** What one call does *)

Lemma reset_spec (r : Run) :
  let w := cur r in
  ∃ r', reset r = Normal r'
    ∧ cur r'
      = mkWorld (set_currentPosition 0 (this w))
          ((if 0 <? currentPosition (this w)
            then dispatchEvent KonamiReset else id)
             (clearTimeout (timeoutRef (this w)) (env w)))
    ∧ (∀ s, s ∈ visited r' ->
         s ∈ visited r
         ∨ (code (this s) = code (this w) ∧ currentPosition (this s) = 0)).
Proof.
  unfold reset, andThen, stmt, emit, skip, visited, with_this, with_env.
  destruct r as [[[c p t h] ev] ps]. cbn -[Nat.ltb].
  destruct (0 <? p); cbn.
  all: eexists; (split; [reflexivity|]); cbn; (split; [reflexivity|]).
  all: intros s Hs; rewrite !elem_of_cons in Hs; rewrite elem_of_cons.
  all: destruct_or! Hs; subst; cbn; auto.
Qed.

Lemma handleKeydown_wrong_spec (e : KeyboardEvent) (r : Run) :
  repeat e = false ->
  code (this (cur r)) !! currentPosition (this (cur r)) ≠ Some (key e) ->
  handleKeydown e r = reset r.
Proof.
  intros Hrep Hne. unfold handleKeydown. rewrite Hrep.
  rewrite bool_decide_eq_true_2; [reflexivity | congruence].
Qed.

Lemma handleKeydown_match_spec (e : KeyboardEvent) (r : Run) :
  repeat e = false ->
  code (this (cur r)) !! currentPosition (this (cur r)) = Some (key e) ->
  let w := cur r in
  let n := S (currentPosition (this w)) in
  let N := length (code (this w)) in
  let h := Some (nextTimerId (env w)) in
  let mid :=
    mkWorld (mkKonamiController (code (this w)) n (timeout (this w)) h)
            (dispatchEvent (KonamiProgress n N)
               (snd (setTimeout (timeout (this w))
                       (clearTimeout (timeoutRef (this w)) (env w))))) in
  let final :=
    mkWorld (mkKonamiController (code (this w)) 0 (timeout (this w)) h)
            (dispatchEvent KonamiReset
               (clearTimeout h
                  (requestUpdate (dispatchEvent KonamiActivated (env mid))))) in
  ∃ r', handleKeydown e r = Normal r'
    ∧ cur r' = (if n =? N then final else mid)
    ∧ mid ∈ visited r'
    ∧ (∀ s, s ∈ visited r' ->
         s ∈ visited r
         ∨ (code (this s) = code (this w)
            ∧ (currentPosition (this s) = n
               ∨ (currentPosition (this s) = 0 ∧ n = N)))).
Proof.
  intros Hrep Hk w n N h mid final. unfold handleKeydown. rewrite Hrep.
  rewrite bool_decide_eq_false_2 by (intros H; apply H; congruence).
  subst final mid h N n w. destruct r as [[[c p t [h|]] ev] ps].
  all: unfold andThen, stmt, emit, armTimeout, with_this, with_env, reset, skip, visited.
  all: cbn -[Nat.eqb Nat.ltb]; clear Hk.
  all: change (0 <? S p) with true.
  all: destruct (S p =? length c) eqn:E; cbn -[Nat.eqb Nat.ltb].
  all: try apply Nat.eqb_eq in E.
  all: eexists; (split; [reflexivity|]); cbn; (split; [reflexivity|]); split.
  all: try (rewrite !elem_of_cons; auto 10; fail).
  all: intros s Hs; rewrite !elem_of_cons in Hs; rewrite elem_of_cons.
  all: destruct_or! Hs; subst; cbn; auto 10.
Qed.

Lemma clearTimeout_owned (h : option nat) (e : Env) :
  (∀ id d, pendingTimers e !! id = Some d -> h = Some id) ->
  pendingTimers (clearTimeout h e) = ∅.
Proof.
  intros Hown. apply map_eq. intros i. rewrite lookup_empty.
  destruct h as [id|]; cbn.
  - destruct (decide (id = i)) as [->|Hne].
    + apply lookup_delete_eq.
    + rewrite lookup_delete_ne by done.
      destruct (pendingTimers e !! i) as [d|] eqn:E; [|done].
      apply Hown in E. congruence.
  - destruct (pendingTimers e !! i) as [d|] eqn:E; [|done].
    apply Hown in E. congruence.
Qed.

Lemma clearTimeout_fields (h : option nat) (e : Env) :
  dispatched (clearTimeout h e) = dispatched e
  ∧ keydownListener (clearTimeout h e) = keydownListener e
  ∧ nextTimerId (clearTimeout h e) = nextTimerId e
  ∧ clock (clearTimeout h e) = clock e
  ∧ updateRequests (clearTimeout h e) = updateRequests e.
Proof. destruct h; cbn; auto. Qed.

Lemma Inv_no_timer (w : World) :
  pendingTimers (env w) = ∅ ->
  (∀ id, timeoutRef (this w) = Some id -> id < nextTimerId (env w)) ->
  currentPosition (this w) < Nat.max 1 (length (code (this w))) ->
  Inv w.
Proof.
  intros He Hf Hb. split; auto.
  - intros id d. rewrite He, lookup_empty. discriminate.
  - intros Hne. contradiction.
Qed.

Lemma Inv_bound_le (w : World) :
  Inv w -> currentPosition (this w) ≤ length (code (this w)).
Proof. intros [_ _ _ Hb _]. lia. Qed.

Lemma Inv_reset (w : World) (r' : Run) :
  Inv w ->
  cur r'
  = mkWorld (set_currentPosition 0 (this w))
      ((if 0 <? currentPosition (this w)
        then dispatchEvent KonamiReset else id)
         (clearTimeout (timeoutRef (this w)) (env w))) ->
  Inv (cur r').
Proof.
  intros [Ho Hf Ha Hb _] ->.
  pose proof (clearTimeout_owned _ _ Ho) as He.
  pose proof (clearTimeout_fields (timeoutRef (this w)) (env w))
    as (_ & _ & Hn & _).
  apply Inv_no_timer.
  - destruct (0 <? currentPosition (this w)); cbn; exact He.
  - destruct (0 <? currentPosition (this w)); cbn; rewrite Hn; exact Hf.
  - cbn. lia.
Qed.

Lemma process_spec (ev : Event) (w : World) :
  Inv w ->
  ∃ r, process ev (begin w) = Normal r
    ∧ Inv (cur r)
    ∧ ∀ s, s ∈ visited r ->
        code (this s) = code (this w)
        ∧ currentPosition (this s) ≤ length (code (this w)).
Proof.
  intros HI. pose proof (Inv_bound_le w HI) as Hle.
  assert (Hw : ∀ s, s ∈ visited (begin w) ->
             code (this s) = code (this w)
             ∧ currentPosition (this s) ≤ length (code (this w))).
  { intros s Hs. unfold visited, begin in Hs. cbn in Hs.
    apply list_elem_of_singleton in Hs. subst s. auto. }
  destruct ev as [e|dt|id| |]; cbn [process].
  - (* a key event *)
    change (cur (begin w)) with w.
    destruct (keydownListener (env w)) eqn:Hl; [|eauto].
    destruct (repeat e) eqn:Hrep.
    { unfold handleKeydown. rewrite Hrep. eauto. }
    destruct (decide (code (this w) !! currentPosition (this w) = Some (key e)))
      as [Hk|Hk].
    + destruct (handleKeydown_match_spec e (begin w) Hrep Hk)
        as (r' & -> & Hcur & _ & Hvis).
      change (cur (begin w)) with w in *.
      pose proof (lookup_lt_Some _ _ _ Hk) as Hlt.
      exists r'. split; [reflexivity|]. split.
      * destruct HI as [Ho Hf Ha Hb Hd].
        pose proof (clearTimeout_owned _ _ Ho) as He.
        pose proof (clearTimeout_fields (timeoutRef (this w)) (env w))
          as (_ & Hl' & Hn & _).
        destruct (S (currentPosition (this w)) =? length (code (this w))) eqn:E.
        -- apply Inv_no_timer; rewrite Hcur; cbn.
           ++ rewrite He, Hn, delete_insert_eq. apply delete_empty.
           ++ intros id [= <-]. rewrite Hn. lia.
           ++ lia.
        -- apply Nat.eqb_neq in E. split; rewrite Hcur; cbn.
           ++ intros id d. rewrite He, Hn.
              intros [[-> _]|[_ H]]%lookup_insert_Some; [done|].
              rewrite lookup_empty in H. discriminate.
           ++ intros id [= <-]. rewrite Hn. lia.
           ++ lia.
           ++ lia.
           ++ rewrite Hl', Hl. discriminate.
      * intros s Hs. destruct (Hvis s Hs) as [H|[Hc [Hp|[Hp _]]]]; auto.
        all: rewrite Hc, Hp; split; [reflexivity|lia].
    + rewrite (handleKeydown_wrong_spec e (begin w) Hrep Hk).
      destruct (reset_spec (begin w)) as (r' & -> & Hcur & Hvis).
      exists r'. split; [reflexivity|]. split.
      * eapply Inv_reset; eauto.
      * intros s Hs. destruct (Hvis s Hs) as [H|[Hc Hp]]; auto.
        change (cur (begin w)) with w in *.
        rewrite Hc, Hp. split; [reflexivity|lia].
  - (* time passes *)
    unfold stmt, with_env, begin. cbn. eexists. split; [reflexivity|].
    split.
    + destruct HI as [Ho Hf Ha Hb Hd]. split; cbn; auto.
    + unfold visited. cbn. intros s Hs. rewrite !elem_of_cons in Hs.
      destruct_or! Hs; subst; cbn; auto. inversion Hs.
  - (* a timer fires *)
    change (cur (begin w)) with w.
    destruct (pendingTimers (env w) !! id) as [d|] eqn:Hd; [|eauto].
    destruct (bool_decide (d ≤ clock (env w))%Z); [|eauto].
    unfold andThen, stmt. cbn [cur past begin].
    match goal with |- context [reset ?r0] =>
      destruct (reset_spec r0) as (r' & -> & Hcur & Hvis) end.
    cbn [cur] in Hcur, Hvis.
    exists r'. split; [reflexivity|]. split.
    + eapply Inv_reset; [|exact Hcur].
      destruct HI as [Ho Hf Ha Hb Hdet]. split; cbn; auto.
      * intros id' d'. intros [_ H]%lookup_delete_Some. eauto.
      * intros H. apply Ha. intros He. rewrite He in Hd.
        rewrite lookup_empty in Hd. discriminate.
      * intros H. rewrite (Hdet H). apply delete_empty.
    + intros s Hs. destruct (Hvis s Hs) as [H|[Hc Hp]].
      * unfold visited in H. cbn in H. rewrite !elem_of_cons in H.
        destruct_or! H; subst; cbn; auto. inversion H.
      * cbn in Hc. rewrite Hc, Hp. split; [reflexivity|lia].
  - (* hostConnected *)
    unfold hostConnected, stmt, with_env, begin. cbn.
    eexists. split; [reflexivity|]. split.
    + destruct HI as [Ho Hf Ha Hb Hd]. split; cbn; auto. discriminate.
    + unfold visited. cbn. intros s Hs. rewrite !elem_of_cons in Hs.
      destruct_or! Hs; subst; cbn; auto. inversion Hs.
  - (* hostDisconnected *)
    unfold hostDisconnected, andThen, stmt, with_env, begin. cbn.
    eexists. split; [reflexivity|]. split.
    + destruct HI as [Ho Hf Ha Hb Hd].
      pose proof (clearTimeout_owned (timeoutRef (this w))
                    (removeEventListener (env w)) Ho) as He.
      pose proof (clearTimeout_fields (timeoutRef (this w))
                    (removeEventListener (env w))) as (_ & _ & Hn & _).
      apply Inv_no_timer; cbn; auto. rewrite Hn. exact Hf.
    + unfold visited. cbn. intros s Hs. rewrite !elem_of_cons in Hs.
      destruct_or! Hs; subst; cbn; auto. inversion Hs.
Qed.

Lemma deliver_spec (ev : Event) (w : World) :
  Inv w -> ∃ w', deliver ev w = Normal w' ∧ Inv w'.
Proof.
  intros HI. destruct (process_spec ev w HI) as (r & Hr & HI' & _).
  exists (cur r). unfold deliver, run. rewrite Hr. auto.
Qed.

Lemma Reachable_Inv (w : World) : Reachable w -> Inv w.
Proof.
  induction 1 as [host options w Hl He Hnew|ev w w' _ IH Hd].
  - injection Hnew as <-. apply Inv_no_timer; cbn; [done|discriminate|lia].
  - destruct (deliver_spec ev w IH) as (w'' & Hd' & HI).
    rewrite Hd in Hd'. injection Hd' as <-. exact HI.
Qed.

Lemma Reachable_deliverAll (evs : list Event) (w w' : World) :
  Reachable w -> deliverAll evs w = Normal w' -> Reachable w'.
Proof.
  revert w. induction evs as [|ev evs IH]; intros w Hw; cbn.
  - intros [= <-]. exact Hw.
  - destruct (deliver ev w) as [w1|] eqn:E; [|discriminate].
    apply IH. eapply Reachable_deliver; eauto.
Qed.

Lemma Reachable_scenario (options : option Options) (evs : list Event)
      (w : World) :
  scenario options evs = Normal w -> Reachable w.
Proof.
  unfold scenario.
  destruct (KonamiController_new freshHost options) as [w0|] eqn:E;
    [|discriminate].
  apply Reachable_deliverAll.
  eapply Reachable_new; [| |exact E]; reflexivity.
Qed.

(** ** The empty sequence *)

Lemma process_empty_code (ev : Event) (w : World) :
  code (this w) = [] -> currentPosition (this w) = 0 ->
  ∃ w', deliver ev w = Normal w'
    ∧ code (this w') = [] ∧ currentPosition (this w') = 0
    ∧ dispatched (env w') = dispatched (env w).
Proof.
  intros Hc Hp. unfold deliver, run.
  assert (Hreset : ∀ r, code (this (cur r)) = [] ->
            currentPosition (this (cur r)) = 0 ->
            ∃ r', reset r = Normal r'
              ∧ code (this (cur r')) = []
              ∧ currentPosition (this (cur r')) = 0
              ∧ dispatched (env (cur r')) = dispatched (env (cur r))).
  { intros r Hc' Hp'. destruct (reset_spec r) as (r' & -> & Hcur & _).
    exists r'. split; [reflexivity|]. rewrite Hcur, Hp'. cbn.
    repeat split; auto.
    apply (clearTimeout_fields (timeoutRef (this (cur r))) (env (cur r))). }
  destruct ev as [e|dt|id| |]; cbn [process].
  - change (cur (begin w)) with w.
    destruct (keydownListener (env w)); [|cbn; eauto].
    destruct (repeat e) eqn:Hrep.
    { unfold handleKeydown. rewrite Hrep. cbn. eauto. }
    rewrite handleKeydown_wrong_spec; [|exact Hrep|].
    + destruct (Hreset (begin w) Hc Hp) as (r' & -> & H). eauto.
    + change (cur (begin w)) with w. rewrite Hc. discriminate.
  - cbn. eauto.
  - change (cur (begin w)) with w.
    destruct (pendingTimers (env w) !! id) as [d|]; [|cbn; eauto].
    destruct (bool_decide (d ≤ clock (env w))%Z); [|cbn; eauto].
    unfold andThen, stmt. cbn [cur past begin].
    match goal with |- context [reset ?r0] =>
      destruct (Hreset r0 Hc Hp) as (r' & -> & H) end.
    eauto.
  - cbn. eauto.
  - cbn. pose proof (clearTimeout_fields (timeoutRef (this w))
                       (removeEventListener (env w))) as (Hd & _).
    eauto.
Qed.

Lemma deliverAll_empty_code (evs : list Event) (w0 : World) :
  code (this w0) = [] -> currentPosition (this w0) = 0 ->
  ∃ w, deliverAll evs w0 = Normal w
    ∧ code (this w) = [] ∧ currentPosition (this w) = 0
    ∧ dispatched (env w) = dispatched (env w0).
Proof.
  revert w0. induction evs as [|ev evs IH]; intros w0 Hc Hp.
  - exists w0. cbn. auto.
  - destruct (process_empty_code ev w0 Hc Hp) as (w1 & E & Hc1 & Hp1 & Hd1).
    cbn. rewrite E. destruct (IH w1 Hc1 Hp1) as (w & ? & ? & ? & ?).
    exists w. repeat split; auto; congruence.
Qed.

(** ** The concrete states used below are reachable *)

Lemma world_ab_scenario :
  scenario (Some (mkOptions (Some ["a"; "b"]%string) (Some (Num 500))))
           [HostConnected]
  = Normal world_ab.
Proof. vm_compute. reflexivity. Qed.

Lemma world_a_of_ab_scenario :
  scenario (Some (mkOptions (Some ["a"; "b"]%string) (Some (Num 500))))
           [HostConnected; Keydown (press "a"); Elapse 400]
  = Normal world_a_of_ab.
Proof. vm_compute. reflexivity. Qed.

Lemma world_a_of_ab_late_scenario :
  scenario (Some (mkOptions (Some ["a"; "b"]%string) (Some (Num 500))))
           [HostConnected; Keydown (press "a"); Elapse 501]
  = Normal world_a_of_ab_late.
Proof. vm_compute. reflexivity. Qed.



(** ** The delay of a timer *)






(** ** Feeding the sequence *)

Lemma count_occ_progress (N : nat) (l : list nat) :
  count_occ Notification_eq_dec (map (λ i, KonamiProgress i N) l)
            KonamiActivated = 0.
Proof.
  induction l as [|i l IH]; [reflexivity|].
  cbn [map count_occ].
  destruct (Notification_eq_dec (KonamiProgress i N) KonamiActivated);
    [discriminate|exact IH].
Qed.

Lemma feed_from (keys : list string) :
  ∀ (pre : list string) (w : World),
    keys ≠ [] ->
    code (this w) = pre ++ keys ->
    currentPosition (this w) = length pre ->
    ∃ w', feed keys w = Normal w'
      ∧ currentPosition (this w') = 0
      ∧ dispatched (env w')
        = dispatched (env w)
          ++ map (λ i, KonamiProgress i (length (code (this w))))
                 (seq (S (length pre)) (length keys))
          ++ [KonamiActivated; KonamiReset].
Proof.
  induction keys as [|k keys IH]; intros pre w Hne Hc Hp; [done|].
  assert (Hk : code (this w) !! currentPosition (this w) = Some k).
  { rewrite Hc, Hp. apply list_lookup_middle. reflexivity. }
  destruct (handleKeydown_match_spec (press k) (begin w) eq_refl Hk)
    as (r & Hr & Hcur & _).
  change (cur (begin w)) with w in *.
  pose proof (clearTimeout_fields (timeoutRef (this w)) (env w)) as (Hd & _).
  assert (HN : length (code (this w)) = S (length pre + length keys)).
  { rewrite Hc, length_app. cbn. lia. }
  cbn [feed]. unfold run. rewrite Hr.
  destruct keys as [|k' keys].
  - (* the last key *)
    replace (S (currentPosition (this w)) =? length (code (this w)))
      with true in Hcur by (symmetry; apply Nat.eqb_eq; cbn in HN; lia).
    exists (cur r). split; [reflexivity|]. rewrite Hcur. cbn.
    split; [reflexivity|]. rewrite Hd, Hp, <- !app_assoc. reflexivity.
  - replace (S (currentPosition (this w)) =? length (code (this w)))
      with false in Hcur by (symmetry; apply Nat.eqb_neq; cbn in HN; lia).
    destruct (IH (pre ++ [k]) (cur r)) as (w' & Hf & Hp' & Hd').
    + discriminate.
    + rewrite Hcur. cbn. rewrite Hc, <- app_assoc. reflexivity.
    + rewrite Hcur. cbn. rewrite Hp, length_app. cbn. lia.
    + exists w'. split; [exact Hf|]. split; [exact Hp'|].
      rewrite Hd'. rewrite Hcur. cbn -[seq map length].
      rewrite Hd, Hp, length_app, <- !app_assoc.
      replace (length pre + length [k]) with (S (length pre)) by (cbn; lia).
      reflexivity.
Qed.

(** ** Timers and teardown *)

Lemma Inv_at_most_one (w : World) :
  Inv w -> size (pendingTimers (env w)) ≤ 1.
Proof.
  intros HI. pose proof (clearTimeout_owned _ _ (inv_owned w HI)) as He.
  destruct (timeoutRef (this w)) as [id|]; cbn in He.
  - pose proof (map_size_delete id (pendingTimers (env w))) as Hs.
    rewrite He, map_size_empty in Hs.
    destruct (pendingTimers (env w) !! id); cbn in Hs; lia.
  - rewrite He, map_size_empty. lia.
Qed.

(** While the handler is not registered and no timer is pending, nothing
    the environment does (short of connecting the host again) reaches the
    controller. *)
Lemma detached_is_silent (evs : list Event) :
  ∀ w : World,
    keydownListener (env w) = false ->
    pendingTimers (env w) = ∅ ->
    Forall (λ ev, ev ≠ HostConnected) evs ->
    ∃ w', deliverAll evs w = Normal w'
      ∧ this w' = this w
      ∧ dispatched (env w') = dispatched (env w).
Proof.
  induction evs as [|ev evs IH]; intros w Hl He Hevs.
  - exists w. cbn. auto.
  - apply Forall_cons in Hevs as [Hev Hevs].
    assert (Hstep : ∃ w1, deliver ev w = Normal w1
              ∧ keydownListener (env w1) = false
              ∧ pendingTimers (env w1) = ∅
              ∧ this w1 = this w
              ∧ dispatched (env w1) = dispatched (env w)).
    { unfold deliver, run. destruct ev as [e|dt|id| |]; cbn [process].
      - change (cur (begin w)) with w. rewrite Hl.
        exists w. cbn. auto.
      - eexists. split; [reflexivity|]. cbn. auto.
      - change (cur (begin w)) with w. rewrite He, lookup_empty.
        exists w. cbn. auto.
      - done.
      - cbn.
        pose proof (clearTimeout_fields (timeoutRef (this w))
                      (removeEventListener (env w))) as (Hd & Hl' & _).
        eexists. split; [reflexivity|]. cbn. rewrite Hd, Hl'. cbn.
        repeat split. apply clearTimeout_owned. cbn. intros id d.
        rewrite He, lookup_empty. discriminate. }
    destruct Hstep as (w1 & E & Hl1 & He1 & Ht1 & Hd1).
    destruct (IH w1 Hl1 He1 Hevs) as (w' & E' & Ht' & Hd').
    exists w'. cbn. rewrite E. split; [exact E'|]. split; congruence.
Qed.

(** ** The claims *)

(** C1, evaluated on the code. The specification says that the event which
    completes the sequence dispatches no reset. The handler calls [reset]
    while the cursor still equals the length, so [isPartial] is true and
    the reset is dispatched right after the activation: with the default
    sequence, the host connected and the ten keys pressed in order, the
    host receives ten progress notifications, the activation and a reset. *)
Theorem C1_completion_dispatches_reset :
  log (konami (map (λ k, Keydown (press k)) defaultCode))
  = [KonamiProgress 1 10; KonamiProgress 2 10; KonamiProgress 3 10;
     KonamiProgress 4 10; KonamiProgress 5 10; KonamiProgress 6 10;
     KonamiProgress 7 10; KonamiProgress 8 10; KonamiProgress 9 10;
     KonamiProgress 10 10; KonamiActivated; KonamiReset].
Proof. vm_compute. reflexivity. Qed.

(** C2, as the specification states it: the constructor rejects an empty
    sequence. It does not: on a fresh host the call completes normally. *)
Lemma C2_empty_sequence_is_not_rejected :
  ¬ ∃ reason,
      KonamiController_new freshHost (Some (mkOptions (Some []) None))
      = Throw reason.
Proof. intros [reason H]. discriminate H. Qed.

(** C2, amended. The constructor validates nothing: given an explicitly
    supplied empty sequence it completes normally, on every host and for
    every timeout option, and returns a controller whose sequence is the
    empty one, with total 0 and the cursor at 0. *)
Theorem C2_empty_sequence_is_accepted (host : Env) (t : option JsNumber) :
  ∃ w, KonamiController_new host (Some (mkOptions (Some []) t)) = Normal w
    ∧ code (this w) = []
    ∧ total w = 0
    ∧ progress w = 0.
Proof. eexists. split; [reflexivity|]. cbn. auto. Qed.

(** C3. Whatever the timeout, for a controller whose sequence is not empty
    and whose cursor is at 0, calling the handler once per key of the
    sequence, in order and without repeats, completes; the host is then
    sent one progress per key, numbered 1 to N in this order and all
    before the activation, exactly one activation (followed by the reset
    of C1), and the cursor is back at 0. *)
Theorem C3_full_sequence_activates_once (w : World) :
  code (this w) ≠ [] ->
  progress w = 0 ->
  ∃ w' news,
    feed (code (this w)) w = Normal w'
    ∧ progress w' = 0
    ∧ dispatched (env w') = dispatched (env w) ++ news
    ∧ news = map (λ i, KonamiProgress i (total w)) (seq 1 (total w))
             ++ [KonamiActivated; KonamiReset]
    ∧ count_occ Notification_eq_dec news KonamiActivated = 1.
Proof.
  intros Hne Hp.
  destruct (feed_from (code (this w)) [] w Hne eq_refl Hp)
    as (w' & Hf & Hp' & Hd).
  eexists w', _. split; [exact Hf|]. split; [exact Hp'|].
  split; [exact Hd|]. split; [reflexivity|].
  rewrite count_occ_app, count_occ_progress. reflexivity.
Qed.

Lemma C3_full_sequence_activates_once_witness :
  ∃ w' news,
    feed ["a"; "b"]%string world_ab = Normal w'
    ∧ progress w' = 0
    ∧ dispatched (env w') = [] ++ news
    ∧ news = [KonamiProgress 1 2; KonamiProgress 2 2;
              KonamiActivated; KonamiReset]
    ∧ count_occ Notification_eq_dec news KonamiActivated = 1.
Proof.
  apply (C3_full_sequence_activates_once world_ab).
  - discriminate.
  - reflexivity.
Defined.

(** C4. A key event whose [repeat] flag is set is ignored: whatever the
    state and the key, the handler returns at once, the run has gone
    through no new state, the world (cursor, timer handle, pending timers,
    host log and everything else) is the one before, and so nothing is
    dispatched. The same holds when the event arrives through the window. *)
Theorem C4_repeat_is_ignored (k : string) (r : Run) (w : World) :
  handleKeydown (mkKeyboardEvent k true) r = Normal r
  ∧ run (handleKeydown (mkKeyboardEvent k true)) w = Normal w
  ∧ deliver (Keydown (mkKeyboardEvent k true)) w = Normal w.
Proof.
  split; [reflexivity|]. split; [reflexivity|].
  unfold deliver, run. cbn. destruct (keydownListener (env w)); reflexivity.
Qed.

(** C5. In a reachable state, a key event that is not a repeat and whose key
    is not the one expected at the cursor (whatever that key is, the first
    key of the sequence included) leaves the cursor at 0 and no timer
    pending; the host is sent nothing when the cursor was 0 and exactly one
    reset when it was greater than 0. *)
Theorem C5_wrong_key_resets (w : World) (k : string) :
  Reachable w ->
  nextExpectedKey w ≠ Some k ->
  ∃ w', run (handleKeydown (press k)) w = Normal w'
    ∧ progress w' = 0
    ∧ pendingTimers (env w') = ∅
    ∧ code (this w') = code (this w)
    ∧ dispatched (env w')
      = dispatched (env w) ++ (if 0 <? progress w then [KonamiReset] else []).
Proof.
  intros HR Hk. apply Reachable_Inv in HR. unfold run.
  rewrite handleKeydown_wrong_spec; [|reflexivity|exact Hk].
  destruct (reset_spec (begin w)) as (r' & -> & Hcur & _).
  change (cur (begin w)) with w in Hcur.
  pose proof (clearTimeout_owned _ _ (inv_owned w HR)) as He.
  pose proof (clearTimeout_fields (timeoutRef (this w)) (env w)) as (Hd & _).
  exists (cur r'). split; [reflexivity|]. rewrite Hcur. unfold progress.
  cbn -[Nat.ltb]. repeat split.
  - destruct (0 <? currentPosition (this w)); exact He.
  - destruct (0 <? currentPosition (this w)); cbn; rewrite Hd;
      [reflexivity|symmetry; apply app_nil_r].
Qed.

Lemma C5_wrong_key_resets_witness :
  ∃ w', run (handleKeydown (press "a")) world_a_of_ab = Normal w'
    ∧ progress w' = 0
    ∧ pendingTimers (env w') = ∅
    ∧ code (this w') = ["a"; "b"]%string
    ∧ dispatched (env w') = [KonamiProgress 1 2; KonamiReset].
Proof.
  apply (C5_wrong_key_resets world_a_of_ab "a").
  - exact (Reachable_scenario _ _ _ world_a_of_ab_scenario).
  - vm_compute. discriminate.
Defined.




(** C7. In a reachable state at most one timer is pending, and if one is
    the cursor is greater than 0. So when the environment runs a pending
    timer that is due, the callback dispatches exactly one reset and leaves
    the cursor at 0 and no timer pending. *)
Theorem C7_single_timer (w : World) :
  Reachable w ->
  size (pendingTimers (env w)) ≤ 1
  ∧ (pendingTimers (env w) = ∅ ∨ 0 < progress w)
  ∧ ∀ id d,
      pendingTimers (env w) !! id = Some d ->
      (d ≤ clock (env w))%Z ->
      ∃ w', deliver (TimerFires id) w = Normal w'
        ∧ dispatched (env w') = dispatched (env w) ++ [KonamiReset]
        ∧ progress w' = 0
        ∧ pendingTimers (env w') = ∅.
Proof.
  intros HR. apply Reachable_Inv in HR.
  split; [exact (Inv_at_most_one w HR)|]. split.
  - destruct (decide (pendingTimers (env w) = ∅)) as [He|Hne]; [auto|].
    right. exact (inv_armed w HR Hne).
  - intros id d Hd Hdue.
    assert (Hpos : 0 < currentPosition (this w)).
    { apply (inv_armed w HR). intros He. rewrite He, lookup_empty in Hd.
      discriminate. }
    pose proof (inv_owned w HR id d Hd) as Href.
    unfold deliver, run. cbn [process]. change (cur (begin w)) with w.
    rewrite Hd, bool_decide_eq_true_2 by exact Hdue.
    unfold andThen, stmt. cbn [cur past begin].
    match goal with |- context [reset ?r0] =>
      destruct (reset_spec r0) as (r' & -> & Hcur & _) end.
    exists (cur r'). split; [reflexivity|]. rewrite Hcur. unfold progress.
    cbn [cur this env with_env currentPosition timeoutRef].
    apply Nat.ltb_lt in Hpos. rewrite Hpos, Href. cbn.
    repeat split. rewrite delete_delete_eq.
    apply (clearTimeout_owned (Some id) (env w)).
    intros id' d' H. rewrite <- Href. exact (inv_owned w HR id' d' H).
Qed.

Lemma C7_single_timer_witness :
  ∃ w', deliver (TimerFires 1) world_a_of_ab_late = Normal w'
    ∧ dispatched (env w') = [KonamiProgress 1 2; KonamiReset]
    ∧ progress w' = 0
    ∧ pendingTimers (env w') = ∅.
Proof.
  destruct (C7_single_timer world_a_of_ab_late
              (Reachable_scenario _ _ _ world_a_of_ab_late_scenario))
    as (_ & _ & Hfire).
  apply (Hfire 1 500%Z); [reflexivity|vm_compute; discriminate].
Defined.

(** C8. For a sequence of length N that is not empty: in every reachable
    state the cursor is below N; while any event of the environment (a key
    press, a timer firing, a teardown, a connection, time passing) is
    processed, every state the handler goes through has its cursor at most
    N and the same sequence; and the state the event ends in has its cursor
    below N again, so a cursor equal to N never outlives the event that
    produced it. *)
Theorem C8_cursor_in_range (w : World) (ev : Event) :
  Reachable w ->
  code (this w) ≠ [] ->
  progress w < total w
  ∧ ∃ r, process ev (begin w) = Normal r
      ∧ Forall (λ s, total s = total w ∧ progress s ≤ total w) (visited r)
      ∧ progress (cur r) < total w.
Proof.
  intros HR Hne. apply Reachable_Inv in HR.
  assert (Hlen : 0 < length (code (this w))).
  { destruct (code (this w)); [done|cbn; lia]. }
  split; [pose proof (inv_bound w HR); unfold progress, total; lia|].
  destruct (process_spec ev w HR) as (r & Hr & HI & Hvis).
  exists r. split; [exact Hr|]. split.
  - apply Forall_forall. intros s Hs. destruct (Hvis s Hs) as [Hc Hp].
    unfold total, progress. rewrite Hc. auto.
  - pose proof (inv_bound (cur r) HI) as Hb.
    destruct (Hvis (cur r)) as [Hc _]; [unfold visited; left|].
    unfold progress, total. rewrite Hc in Hb. lia.
Qed.

Lemma C8_cursor_in_range_witness :
  progress world_a_of_ab < total world_a_of_ab
  ∧ ∃ r, process (Keydown (press "b")) (begin world_a_of_ab) = Normal r
      ∧ Forall (λ s, total s = total world_a_of_ab
                     ∧ progress s ≤ total world_a_of_ab) (visited r)
      ∧ progress (cur r) < total world_a_of_ab.
Proof.
  apply (C8_cursor_in_range world_a_of_ab (Keydown (press "b"))).
  - exact (Reachable_scenario _ _ _ world_a_of_ab_scenario).
  - discriminate.
Defined.

(** C9. [hostDisconnected] completes normally in every reachable state, the
    one right after construction included. Called while the handler is not
    registered (never connected, or disconnected before) it changes
    nothing at all; called a second time it changes nothing further. After
    it the handler is not registered and no timer is pending, it has
    dispatched nothing itself, and whatever the environment does from then
    on without connecting the host again (keys pressed, any amount of time
    passing, the timer facility running whatever it still holds, further
    teardowns) the host is sent no notification. *)
Theorem C9_teardown_is_idempotent_and_final (w : World) :
  Reachable w ->
  ∃ w1, run hostDisconnected w = Normal w1
    ∧ run hostDisconnected w1 = Normal w1
    ∧ (keydownListener (env w) = false -> w1 = w)
    ∧ keydownListener (env w1) = false
    ∧ pendingTimers (env w1) = ∅
    ∧ this w1 = this w
    ∧ dispatched (env w1) = dispatched (env w)
    ∧ ∀ evs, Forall (λ ev, ev ≠ HostConnected) evs ->
        ∃ w2, deliverAll evs w1 = Normal w2
          ∧ dispatched (env w2) = dispatched (env w).
Proof.
  intros HR. apply Reachable_Inv in HR.
  pose proof (clearTimeout_owned (timeoutRef (this w))
                (removeEventListener (env w)) (inv_owned w HR)) as He.
  pose proof (clearTimeout_fields (timeoutRef (this w))
                (removeEventListener (env w))) as (Hd & Hl & _).
  pose proof (inv_detached w HR) as Hdet.
  exists (mkWorld (this w)
            (clearTimeout (timeoutRef (this w))
               (removeEventListener (env w)))).
  split; [reflexivity|]. cbn [this env].
  split; [|split; [|split; [|split; [|split; [|split]]]]].
  - unfold run, hostDisconnected, andThen, stmt, with_env. cbn.
    f_equal. f_equal.
    destruct w as [[c p t [id|]] [ds u cs l ck n pt]]; cbn in *;
      [rewrite delete_delete_eq|]; reflexivity.
  - intros Hoff. specialize (Hdet Hoff).
    destruct w as [[c p t [id|]] [ds u cs l ck n pt]]; cbn in *; subst;
      unfold with_env; cbn; [rewrite delete_empty|]; reflexivity.
  - rewrite Hl. reflexivity.
  - exact He.
  - reflexivity.
  - rewrite Hd. reflexivity.
  - intros evs Hevs.
    match goal with |- ∃ w2, deliverAll evs ?w1 = _ ∧ _ =>
      destruct (detached_is_silent evs w1) as (w2 & E & _ & Hd2) end.
    + cbn. rewrite Hl. reflexivity.
    + exact He.
    + exact Hevs.
    + exists w2. split; [exact E|]. rewrite Hd2. cbn. rewrite Hd.
      reflexivity.
Qed.

Lemma C9_teardown_is_idempotent_and_final_witness :
  ∃ w1, run hostDisconnected world_a_of_ab = Normal w1
    ∧ run hostDisconnected w1 = Normal w1
    ∧ (keydownListener (env world_a_of_ab) = false -> w1 = world_a_of_ab)
    ∧ keydownListener (env w1) = false
    ∧ pendingTimers (env w1) = ∅
    ∧ this w1 = this world_a_of_ab
    ∧ dispatched (env w1) = [KonamiProgress 1 2]
    ∧ ∀ evs, Forall (λ ev, ev ≠ HostConnected) evs ->
        ∃ w2, deliverAll evs w1 = Normal w2
          ∧ dispatched (env w2) = [KonamiProgress 1 2].
Proof.
  apply (C9_teardown_is_idempotent_and_final world_a_of_ab).
  exact (Reachable_scenario _ _ _ world_a_of_ab_scenario).
Defined.

(** C10. An explicitly supplied empty sequence is kept (the default only
    replaces an absent one). For the controller so built, after any series
    of events of the environment: the cursor is 0, the host has been sent
    no notification at all (so no activation), and a key event that is not
    a repeat takes the wrong-key path, that is, the handler is [reset]. *)
Theorem C10_empty_sequence_is_inert (host : Env) (t : option JsNumber)
        (evs : list Event) :
  ∃ w0, KonamiController_new host (Some (mkOptions (Some []) t)) = Normal w0
    ∧ code (this w0) = []
    ∧ ∃ w, deliverAll evs w0 = Normal w
        ∧ progress w = 0
        ∧ dispatched (env w) = dispatched host
        ∧ ∀ k ps, handleKeydown (press k) (mkRun w ps) = reset (mkRun w ps).
Proof.
  eexists. split; [reflexivity|]. split; [reflexivity|].
  match goal with |- ∃ w, deliverAll _ ?w0 = _ ∧ _ =>
    destruct (deliverAll_empty_code evs w0 eq_refl eq_refl)
      as (w & E & Hc & Hp & Hd) end.
  exists w. split; [exact E|]. split; [exact Hp|]. split; [exact Hd|].
  intros k ps. apply handleKeydown_wrong_spec; [reflexivity|].
  cbn. rewrite Hc. discriminate.
Qed.

(** ** Beyond the claims: what one event does *)

Lemma deliver_summary (ev : Event) (w : World) :
  Inv w ->
  ∃ w', deliver ev w = Normal w'
    ∧ Inv w'
    ∧ code (this w') = code (this w)
    ∧ timeout (this w') = timeout (this w)
    ∧ (clock (env w) ≤ clock (env w'))%Z
    ∧ Effect w w'.
Proof.
  intros HI. destruct (deliver_spec ev w HI) as (w' & Hd & HI').
  exists w'. split; [exact Hd|]. split; [exact HI'|]. clear HI'.
  pose proof (clearTimeout_owned _ _ (inv_owned w HI)) as He.
  pose proof (clearTimeout_fields (timeoutRef (this w)) (env w))
    as (Hcd & Hcl & Hcn & Hcc & Hcu).
  assert (Hreset : ∀ r r', cur r = w -> reset r = Normal r' ->
            code (this (cur r')) = code (this w)
            ∧ timeout (this (cur r')) = timeout (this w)
            ∧ (clock (env w) ≤ clock (env (cur r')))%Z
            ∧ Effect w (cur r')).
  { intros r r' Hr Hres. destruct (reset_spec r) as (r'' & Hres' & Hcur & _).
    rewrite Hres in Hres'. injection Hres' as <-. rewrite Hr in Hcur.
    rewrite Hcur. cbn -[Nat.ltb].
    destruct (0 <? currentPosition (this w)) eqn:Hp; cbn.
    - apply Nat.ltb_lt in Hp. rewrite Hcc. repeat split; try lia.
      apply Effect_abandon; cbn; rewrite ?Hcd, ?Hcu; auto.
    - apply Nat.ltb_ge in Hp. rewrite Hcc. repeat split; try lia.
      apply Effect_quiet; cbn; rewrite ?Hcd, ?Hcu; auto; [lia|].
      intros id d. rewrite He, lookup_empty. discriminate. }
  revert Hd. unfold deliver, run.
  destruct ev as [e|dt|id| |]; cbn [process].
  - change (cur (begin w)) with w.
    assert (Hsame : code (this w) = code (this w)
              ∧ timeout (this w) = timeout (this w)
              ∧ (clock (env w) ≤ clock (env w))%Z ∧ Effect w w).
    { repeat split; try lia. apply Effect_quiet; auto. }
    destruct (keydownListener (env w)); [|intros [= <-]; exact Hsame].
    destruct (repeat e) eqn:Hrep.
    { unfold handleKeydown. rewrite Hrep. intros [= <-]. exact Hsame. }
    destruct (decide (code (this w) !! currentPosition (this w) = Some (key e)))
      as [Hk|Hk].
    + destruct (handleKeydown_match_spec e (begin w) Hrep Hk)
        as (r & -> & Hcur & _).
      change (cur (begin w)) with w in Hcur.
      pose proof (lookup_lt_Some _ _ _ Hk) as Hlt.
      intros [= <-]. rewrite Hcur.
      destruct (S (currentPosition (this w)) =? length (code (this w))) eqn:E.
      * apply Nat.eqb_eq in E. cbn. rewrite Hcc.
        repeat split; try lia.
        apply Effect_complete; cbn; rewrite ?Hcd, ?Hcu, ?He, ?Hcn; auto.
        { rewrite E, <- !app_assoc. reflexivity. }
        { rewrite delete_insert_eq. apply delete_empty. }
      * apply Nat.eqb_neq in E. cbn. rewrite Hcc.
        repeat split; try lia.
        apply Effect_advance; cbn; rewrite ?Hcd, ?Hcu, ?He, ?Hcn, ?Hcc; auto.
        lia.
    + rewrite (handleKeydown_wrong_spec e (begin w) Hrep Hk).
      destruct (reset (begin w)) as [r'|] eqn:Hres; [|discriminate].
      intros [= <-]. exact (Hreset (begin w) r' eq_refl Hres).
  - cbn. intros [= <-]. cbn. repeat split; try lia.
    apply Effect_quiet; auto.
  - change (cur (begin w)) with w.
    assert (Hsame : code (this w) = code (this w)
              ∧ timeout (this w) = timeout (this w)
              ∧ (clock (env w) ≤ clock (env w))%Z ∧ Effect w w).
    { repeat split; try lia. apply Effect_quiet; auto. }
    destruct (pendingTimers (env w) !! id) as [d|] eqn:Hd;
      [|intros [= <-]; exact Hsame].
    destruct (bool_decide (d ≤ clock (env w))%Z);
      [|intros [= <-]; exact Hsame].
    unfold andThen, stmt. cbn [cur past begin].
    match goal with |- context [reset ?r0] =>
      destruct (reset_spec r0) as (r' & -> & Hcur & _) end.
    intros [= <-]. rewrite Hcur. cbn -[Nat.ltb].
    assert (Hpos : 0 < currentPosition (this w)).
    { apply (inv_armed w HI). intros Hemp. rewrite Hemp, lookup_empty in Hd.
      discriminate. }
    pose proof (inv_owned w HI id d Hd) as Href.
    apply Nat.ltb_lt in Hpos. rewrite Hpos, Href. cbn.
    apply Nat.ltb_lt in Hpos.
    repeat split; try lia.
    apply Effect_abandon; cbn; auto.
    rewrite delete_delete_eq. rewrite Href in He. exact He.
  - cbn. intros [= <-]. cbn. repeat split; try lia.
    apply Effect_quiet; auto.
  - cbn. intros [= <-]. cbn.
    pose proof (clearTimeout_fields (timeoutRef (this w))
                  (removeEventListener (env w)))
      as (Hd' & _ & _ & Hc' & Hu').
    rewrite Hc'. cbn. repeat split; try lia.
    apply Effect_quiet; cbn; rewrite ?Hd', ?Hu'; auto.
    intros id d.
    rewrite (clearTimeout_owned (timeoutRef (this w))
               (removeEventListener (env w)) (inv_owned w HI)).
    rewrite lookup_empty. discriminate.
Qed.

Lemma replay_app (N : nat) (ns1 ns2 : list Notification) :
  ∀ ph, replay N ph (ns1 ++ ns2)
        = match replay N ph ns1 with
          | Some ph' => replay N ph' ns2
          | None => None
          end.
Proof.
  induction ns1 as [|n ns1 IH]; intros ph; cbn; [reflexivity|].
  destruct (follow N ph n); [apply IH|reflexivity].
Qed.

Lemma Effect_replay (w w' : World) :
  Effect w w' ->
  ∃ news,
    dispatched (env w') = dispatched (env w) ++ news
    ∧ replay (length (code (this w))) (Matching (currentPosition (this w))) news
      = Some (Matching (currentPosition (this w')))
    ∧ updateRequests (env w')
      = updateRequests (env w)
        + count_occ Notification_eq_dec news KonamiActivated.
Proof.
  intros [Hp Hd Hu _|Hlt Hp Hd Hu _ _|Heq Hp Hd Hu _|Hpos Hp Hd Hu _].
  - exists []. rewrite app_nil_r, Hp, Hu. cbn. auto.
  - eexists. split; [exact Hd|]. rewrite Hp, Hu.
    cbn [replay follow count_occ].
    rewrite !Nat.eqb_refl.
    replace (S (currentPosition (this w)) <=? length (code (this w)))
      with true by (symmetry; apply Nat.leb_le; lia).
    replace (S (currentPosition (this w)) =? length (code (this w)))
      with false by (symmetry; apply Nat.eqb_neq; lia).
    cbn [andb].
    destruct (Notification_eq_dec _ _); [discriminate|].
    split; [reflexivity|lia].
  - eexists. split; [exact Hd|]. rewrite Hp, Hu.
    cbn [replay follow count_occ].
    rewrite <- Heq, !Nat.eqb_refl, Nat.leb_refl. cbn [andb].
    destruct (Notification_eq_dec _ _); [discriminate|].
    destruct (Notification_eq_dec _ _); [|contradiction].
    destruct (Notification_eq_dec _ _); [discriminate|].
    split; [reflexivity|]. lia.
  - eexists. split; [exact Hd|]. rewrite Hp, Hu.
    cbn [replay follow count_occ].
    replace (0 <? currentPosition (this w)) with true
      by (symmetry; apply Nat.ltb_lt; lia).
    destruct (Notification_eq_dec _ _); [discriminate|].
    split; [reflexivity|lia].
Qed.

Lemma deliverAll_summary (evs : list Event) :
  ∀ w, Inv w ->
    ∃ w' news,
      deliverAll evs w = Normal w'
      ∧ Inv w'
      ∧ code (this w') = code (this w)
      ∧ timeout (this w') = timeout (this w)
      ∧ dispatched (env w') = dispatched (env w) ++ news
      ∧ replay (length (code (this w)))
               (Matching (currentPosition (this w))) news
        = Some (Matching (currentPosition (this w')))
      ∧ updateRequests (env w')
        = updateRequests (env w)
          + count_occ Notification_eq_dec news KonamiActivated.
Proof.
  induction evs as [|ev evs IH]; intros w HI.
  - exists w, []. cbn. rewrite app_nil_r.
    split; [reflexivity|]. split; [exact HI|]. auto 10.
  - destruct (deliver_summary ev w HI) as (w1 & E & HI1 & Hc1 & Ht1 & _ & Heff).
    destruct (Effect_replay w w1 Heff) as (n1 & Hd1 & Hr1 & Hu1).
    destruct (IH w1 HI1) as (w' & n2 & E' & HI' & Hc' & Ht' & Hd' & Hr' & Hu').
    exists w', (n1 ++ n2). cbn. rewrite E.
    split; [exact E'|]. split; [exact HI'|].
    split; [congruence|]. split; [congruence|].
    split; [rewrite Hd', Hd1, app_assoc; reflexivity|].
    split.
    + rewrite replay_app, Hr1. rewrite <- Hc1. exact Hr'.
    + rewrite count_occ_app, Hu', Hu1. lia.
Qed.

Lemma scenarioOn_summary (host : Env) (options : option Options)
      (evs : list Event) :
  keydownListener host = false ->
  pendingTimers host = ∅ ->
  ∃ w news,
    scenarioOn host options evs = Normal w
    ∧ Reachable w
    ∧ dispatched (env w) = dispatched host ++ news
    ∧ replay (total w) (Matching 0) news = Some (Matching (progress w))
    ∧ updateRequests (env w)
      = updateRequests host
        + count_occ Notification_eq_dec news KonamiActivated.
Proof.
  intros Hl He. unfold scenarioOn.
  destruct (KonamiController_new host options) as [w0|] eqn:E0;
    [|discriminate].
  assert (HR0 : Reachable w0) by (eapply Reachable_new; eauto).
  injection E0 as <-.
  match type of HR0 with Reachable ?w0 =>
    destruct (deliverAll_summary evs w0 (Reachable_Inv _ HR0))
      as (w & news & E & _ & Hc & _ & Hd & Hr & Hu) end.
  exists w, news. split; [exact E|].
  split; [exact (Reachable_deliverAll _ _ _ HR0 E)|].
  split; [exact Hd|]. unfold total, progress. rewrite Hc.
  split; [exact Hr|exact Hu].
Qed.

Lemma replay_payload (N : nat) (ns : list Notification) :
  ∀ ph ph', replay N ph ns = Some ph' -> Forall (payload_ok N) ns.
Proof.
  induction ns as [|n ns IH]; intros ph ph' H; [constructor|].
  cbn [replay] in H. destruct (follow N ph n) as [ph1|] eqn:E; [|discriminate].
  constructor; [|exact (IH _ _ H)].
  destruct n as [|p t|]; cbn; auto.
  destruct ph as [c| |]; cbn [follow] in E; try discriminate.
  destruct (p =? S c) eqn:E1; [|discriminate].
  destruct (t =? N) eqn:E2; [|discriminate].
  destruct (p <=? N) eqn:E3; [|discriminate].
  apply Nat.eqb_eq in E1, E2. apply Nat.leb_le in E3. lia.
Qed.

Lemma deliver_config (ev : Event) (w : World) :
  ∃ w', deliver ev w = Normal w'
    ∧ code (this w') = code (this w)
    ∧ timeout (this w') = timeout (this w).
Proof.
  assert (Hreset : ∀ r, ∃ r', reset r = Normal r'
            ∧ code (this (cur r')) = code (this (cur r))
            ∧ timeout (this (cur r')) = timeout (this (cur r))).
  { intros r. destruct (reset_spec r) as (r' & -> & Hcur & _).
    exists r'. rewrite Hcur. cbn. auto. }
  unfold deliver, run. destruct ev as [e|dt|id| |]; cbn [process].
  - change (cur (begin w)) with w.
    destruct (keydownListener (env w)); [|cbn; eauto].
    destruct (repeat e) eqn:Hrep.
    { unfold handleKeydown. rewrite Hrep. cbn. eauto. }
    destruct (decide (code (this w) !! currentPosition (this w) = Some (key e)))
      as [Hk|Hk].
    + destruct (handleKeydown_match_spec e (begin w) Hrep Hk)
        as (r & -> & Hcur & _).
      exists (cur r). split; [reflexivity|]. rewrite Hcur.
      destruct (_ =? _); cbn; auto.
    + rewrite (handleKeydown_wrong_spec e (begin w) Hrep Hk).
      destruct (Hreset (begin w)) as (r' & -> & H). eauto.
  - cbn. eauto.
  - change (cur (begin w)) with w.
    destruct (pendingTimers (env w) !! id) as [d|]; [|cbn; eauto].
    destruct (bool_decide (d ≤ clock (env w))%Z); [|cbn; eauto].
    unfold andThen, stmt. cbn [cur past begin].
    match goal with |- context [reset ?r0] =>
      destruct (Hreset r0) as (r' & -> & H) end.
    eauto.
  - cbn. eauto.
  - cbn. eauto.
Qed.

Lemma deliverAll_config (evs : list Event) :
  ∀ w, ∃ w', deliverAll evs w = Normal w'
    ∧ code (this w') = code (this w)
    ∧ timeout (this w') = timeout (this w).
Proof.
  induction evs as [|ev evs IH]; intros w; [exists w; cbn; auto|].
  destruct (deliver_config ev w) as (w1 & E & Hc & Ht).
  destruct (IH w1) as (w' & E' & Hc' & Ht').
  exists w'. cbn. rewrite E. split; [exact E'|]. split; congruence.
Qed.

(** ** Beyond the claims: the controller *)

(** X1. The configuration is fixed at construction. Whatever the host and
    whatever happens afterwards, the sequence is the one given (the default
    ten keys when none is given) and the timeout is the whole number of
    milliseconds given, 2000 when none, 0 or NaN is given: a timeout of 0
    cannot be configured. *)
Theorem configuration_is_fixed (host : Env) (options : option Options)
        (evs : list Event) :
  ∃ w, scenarioOn host options evs = Normal w
    ∧ code (this w)
      = match options with
        | Some (mkOptions (Some c) _) => c
        | _ => defaultCode
        end
    ∧ timeout (this w)
      = match options with
        | Some (mkOptions _ (Some (Num t))) =>
            if decide (t = 0%Z) then 2000%Z else t
        | Some (mkOptions _ (Some NaN)) => 2000%Z
        | Some (mkOptions _ None) => 2000%Z
        | None => 2000%Z
        end
    ∧ timeout (this w) ≠ 0%Z.
Proof.
  unfold scenarioOn. cbn.
  match goal with |- ∃ w, deliverAll evs ?w0 = _ ∧ _ =>
    destruct (deliverAll_config evs w0) as (w & E & Hc & Ht) end.
  exists w. split; [exact E|]. rewrite Hc, Ht. cbn.
  destruct options as [[[c|] [[|t]|]]|]; cbn; repeat split; try discriminate.
  all: destruct (Z.eqb_spec t 0); destruct (decide (t = 0%Z));
    try reflexivity; try contradiction; try discriminate; auto.
Qed.

(** X2. The getter [nextExpectedKey] of a reachable controller is undefined
    exactly when the sequence is empty; otherwise it is a key of the
    sequence, the one at the cursor. *)
Theorem nextExpectedKey_is_defined (w : World) :
  Reachable w ->
  (nextExpectedKey w = None ↔ code (this w) = [])
  ∧ ∀ k, nextExpectedKey w = Some k ->
         k ∈ code (this w) ∧ progress w < total w.
Proof.
  intros HR. apply Reachable_Inv in HR. pose proof (inv_bound w HR) as Hb.
  unfold nextExpectedKey, progress, total. split.
  - rewrite lookup_ge_None. split.
    + intros H. destruct (code (this w)); [reflexivity|cbn in *; lia].
    + intros ->. cbn. lia.
  - intros k Hk. split.
    + eapply list_elem_of_lookup_2; eauto.
    + eapply lookup_lt_Some; eauto.
Qed.

Lemma nextExpectedKey_is_defined_witness :
  (nextExpectedKey world_a_of_ab = None ↔ ["a"; "b"]%string = [])
  ∧ ∀ k, nextExpectedKey world_a_of_ab = Some k ->
         k ∈ ["a"; "b"]%string ∧ progress world_a_of_ab < total world_a_of_ab.
Proof.
  apply (nextExpectedKey_is_defined world_a_of_ab).
  exact (Reachable_scenario _ _ _ world_a_of_ab_scenario).
Defined.

(** X3. Since its construction the controller has sent the host a series of
    notifications that follows the protocol of [replay], and that series
    determines the cursor: a listener that starts at 0 and follows the
    notifications is, after any series of events, in the phase
    [Matching] with exactly the controller's cursor. *)
Theorem notifications_follow_protocol (host : Env)
        (options : option Options) (evs : list Event) :
  keydownListener host = false ->
  pendingTimers host = ∅ ->
  ∃ w news,
    scenarioOn host options evs = Normal w
    ∧ dispatched (env w) = dispatched host ++ news
    ∧ replay (total w) (Matching 0) news = Some (Matching (progress w)).
Proof.
  intros Hl He.
  destruct (scenarioOn_summary host options evs Hl He)
    as (w & news & E & _ & Hd & Hr & _).
  eauto.
Qed.

Lemma notifications_follow_protocol_witness :
  ∃ w news,
    scenarioOn freshHost (Some (mkOptions (Some ["a"; "b"]%string) None))
               [HostConnected; Keydown (press "a"); Keydown (press "x");
                Keydown (press "a"); Keydown (press "b")]
    = Normal w
    ∧ dispatched (env w) = dispatched freshHost ++ news
    ∧ replay (total w) (Matching 0) news = Some (Matching (progress w)).
Proof.
  apply (notifications_follow_protocol freshHost); reflexivity.
Defined.

(** X4. Every progress notification sent since construction carries a position
    between 1 and the total, and the total is the length of the sequence. *)
Theorem progress_payload_in_range (host : Env)
        (options : option Options) (evs : list Event) :
  keydownListener host = false ->
  pendingTimers host = ∅ ->
  ∃ w news,
    scenarioOn host options evs = Normal w
    ∧ dispatched (env w) = dispatched host ++ news
    ∧ Forall (payload_ok (total w)) news.
Proof.
  intros Hl He.
  destruct (scenarioOn_summary host options evs Hl He)
    as (w & news & E & _ & Hd & Hr & _).
  exists w, news. split; [exact E|]. split; [exact Hd|].
  exact (replay_payload _ _ _ _ Hr).
Qed.

Lemma progress_payload_in_range_witness :
  ∃ w news,
    scenarioOn freshHost None
               [HostConnected; Keydown (press "ArrowUp");
                Keydown (press "ArrowUp"); Keydown (press "b")]
    = Normal w
    ∧ dispatched (env w) = dispatched freshHost ++ news
    ∧ Forall (payload_ok (total w)) news.
Proof.
  apply (progress_payload_in_range freshHost); reflexivity.
Defined.

(** X5. The controller asks the host for an update exactly once per
    activation: the number of [requestUpdate] calls since construction is
    the number of activations it has dispatched. *)
Theorem one_update_request_per_activation (host : Env)
        (options : option Options) (evs : list Event) :
  keydownListener host = false ->
  pendingTimers host = ∅ ->
  ∃ w news,
    scenarioOn host options evs = Normal w
    ∧ dispatched (env w) = dispatched host ++ news
    ∧ updateRequests (env w)
      = updateRequests host
        + count_occ Notification_eq_dec news KonamiActivated.
Proof.
  intros Hl He.
  destruct (scenarioOn_summary host options evs Hl He)
    as (w & news & E & _ & Hd & _ & Hu).
  eauto.
Qed.

Lemma one_update_request_per_activation_witness :
  ∃ w news,
    scenarioOn freshHost (Some (mkOptions (Some ["a"]%string) None))
               [HostConnected; Keydown (press "a"); Keydown (press "a")]
    = Normal w
    ∧ dispatched (env w) = dispatched freshHost ++ news
    ∧ updateRequests (env w)
      = updateRequests freshHost
        + count_occ Notification_eq_dec news KonamiActivated.
Proof.
  apply (one_update_request_per_activation freshHost); reflexivity.
Defined.




(** X8. Key repeats are transparent in any stream of events: dropping them from
    the stream changes neither the final state nor anything dispatched on
    the way. *)
Theorem repeats_are_transparent (evs : list Event) (w : World) :
  deliverAll evs w
  = deliverAll (List.filter (λ ev, negb (is_repeat ev)) evs) w.
Proof.
  revert w. induction evs as [|ev evs IH]; intros w; [reflexivity|].
  cbn [List.filter]. destruct (is_repeat ev) eqn:Hrep; cbn [negb].
  - destruct ev as [e| | | |]; try discriminate. cbn in Hrep.
    cbn [deliverAll].
    replace (deliver (Keydown e) w) with (Normal w : Completion World);
      [apply IH|].
    unfold deliver, run. cbn [process]. change (cur (begin w)) with w.
    unfold handleKeydown. rewrite Hrep.
    destruct (keydownListener (env w)); reflexivity.
  - cbn [deliverAll]. destruct (deliver ev w); [apply IH|reflexivity].
Qed.

Lemma feed_prefix_from (keys : list string) :
  ∀ (pre post : list string) (w : World),
    post ≠ [] ->
    code (this w) = pre ++ keys ++ post ->
    currentPosition (this w) = length pre ->
    ∃ w', feed keys w = Normal w'
      ∧ code (this w') = code (this w)
      ∧ currentPosition (this w') = length pre + length keys
      ∧ dispatched (env w')
        = dispatched (env w)
          ++ map (λ i, KonamiProgress i (length (code (this w))))
                 (seq (S (length pre)) (length keys)).
Proof.
  induction keys as [|k keys IH]; intros pre post w Hpost Hc Hp.
  - exists w. cbn. rewrite app_nil_r. repeat split; auto. lia.
  - assert (Hk : code (this w) !! currentPosition (this w) = Some k).
    { rewrite Hc, Hp. apply list_lookup_middle. reflexivity. }
    destruct (handleKeydown_match_spec (press k) (begin w) eq_refl Hk)
      as (r & Hr & Hcur & _).
    change (cur (begin w)) with w in *.
    pose proof (clearTimeout_fields (timeoutRef (this w)) (env w)) as (Hd & _).
    assert (HN : S (length pre + length keys) < length (code (this w))).
    { rewrite Hc. rewrite !length_app. cbn. rewrite ?length_app.
      destruct post; [done|cbn; lia]. }
    replace (S (currentPosition (this w)) =? length (code (this w)))
      with false in Hcur by (symmetry; apply Nat.eqb_neq; lia).
    cbn [feed]. unfold run. rewrite Hr.
    destruct (IH (pre ++ [k]) post (cur r)) as (w' & Hf & Hc' & Hp' & Hd').
    + exact Hpost.
    + rewrite Hcur. cbn. rewrite Hc, <- app_assoc. reflexivity.
    + rewrite Hcur. cbn. rewrite Hp, length_app. cbn. lia.
    + exists w'. split; [exact Hf|].
      split; [rewrite Hc', Hcur; reflexivity|].
      split; [rewrite Hp', length_app; cbn; lia|].
      rewrite Hd'. rewrite Hcur. cbn -[seq map length].
      rewrite Hd, Hp, length_app, <- !app_assoc.
      replace (length pre + length [k]) with (S (length pre)) by (cbn; lia).
      reflexivity.
Qed.

(** X9. Feeding a proper prefix of the sequence. From cursor 0, calling the
    handler on the first [k] keys of the sequence (with [k] below the
    length) advances the cursor to [k], dispatches the progress
    notifications 1 to [k] and nothing else (no activation, no reset), and
    leaves the key at index [k] as the next expected one. *)
Theorem proper_prefix_only_progresses (w : World) (k : nat) :
  progress w = 0 ->
  k < total w ->
  ∃ w', feed (take k (code (this w))) w = Normal w'
    ∧ progress w' = k
    ∧ nextExpectedKey w' = code (this w) !! k
    ∧ dispatched (env w')
      = dispatched (env w)
        ++ map (λ i, KonamiProgress i (total w)) (seq 1 k).
Proof.
  intros Hp Hk. unfold total in Hk.
  destruct (feed_prefix_from (take k (code (this w))) []
              (drop k (code (this w))) w) as (w' & Hf & Hc & Hp' & Hd).
  - intros H. apply (f_equal length) in H. rewrite length_drop in H.
    cbn in H. lia.
  - cbn. symmetry. apply take_drop.
  - exact Hp.
  - rewrite length_take in Hp', Hd. rewrite Nat.min_l in Hp', Hd by lia.
    exists w'. split; [exact Hf|]. unfold progress, nextExpectedKey, total.
    rewrite Hc, Hp'. cbn in *. auto.
Qed.

Lemma proper_prefix_only_progresses_witness :
  ∃ w', feed (take 1 ["a"; "b"]%string) world_ab = Normal w'
    ∧ progress w' = 1
    ∧ nextExpectedKey w' = Some "b"%string
    ∧ dispatched (env w') = [] ++ [KonamiProgress 1 2].
Proof.
  apply (proper_prefix_only_progresses world_ab 1).
  - reflexivity.
  - cbn. lia.
Defined.

Lemma idle_without_timer (evs : list Event) :
  ∀ w : World,
    pendingTimers (env w) = ∅ ->
    Forall (λ ev, is_time_event ev = true) evs ->
    ∃ w', deliverAll evs w = Normal w'
      ∧ this w' = this w
      ∧ dispatched (env w') = dispatched (env w).
Proof.
  induction evs as [|ev evs IH]; intros w He Hevs.
  - exists w. cbn. auto.
  - apply Forall_cons in Hevs as [Hev Hevs].
    assert (Hstep : ∃ w1, deliver ev w = Normal w1
              ∧ pendingTimers (env w1) = ∅
              ∧ this w1 = this w
              ∧ dispatched (env w1) = dispatched (env w)).
    { unfold deliver, run. destruct ev as [e|dt|id| |]; try discriminate;
        cbn [process].
      - eexists. split; [reflexivity|]. cbn. auto.
      - change (cur (begin w)) with w. rewrite He, lookup_empty.
        exists w. cbn. auto. }
    destruct Hstep as (w1 & E & He1 & Ht1 & Hd1).
    destruct (IH w1 He1 Hevs) as (w' & E' & Ht' & Hd').
    exists w'. cbn. rewrite E. split; [exact E'|]. split; congruence.
Qed.

(** X10. Disconnecting and connecting the host again keeps the controller's
    cursor but not its timeout: the handler is registered again, the fields
    of the controller are what they were, nothing is dispatched, and no
    timer is pending, so however much time passes afterwards a match in
    progress is not abandoned until the next key. *)
Theorem reconnect_keeps_cursor_without_timeout (w : World) :
  Reachable w ->
  ∃ w', deliverAll [HostDisconnected; HostConnected] w = Normal w'
    ∧ this w' = this w
    ∧ keydownListener (env w') = true
    ∧ pendingTimers (env w') = ∅
    ∧ dispatched (env w') = dispatched (env w)
    ∧ ∀ evs, Forall (λ ev, is_time_event ev = true) evs ->
        ∃ w'', deliverAll evs w' = Normal w''
          ∧ progress w'' = progress w
          ∧ dispatched (env w'') = dispatched (env w).
Proof.
  intros HR. apply Reachable_Inv in HR.
  pose proof (clearTimeout_owned (timeoutRef (this w))
                (removeEventListener (env w)) (inv_owned w HR)) as He.
  pose proof (clearTimeout_fields (timeoutRef (this w))
                (removeEventListener (env w))) as (Hd & _).
  exists (mkWorld (this w)
            (addEventListener
               (clearTimeout (timeoutRef (this w))
                  (removeEventListener (env w))))).
  split; [reflexivity|]. cbn [this env].
  split; [reflexivity|]. split; [reflexivity|].
  split; [exact He|]. split; [exact Hd|].
  intros evs Hevs.
  match goal with |- ∃ x, deliverAll evs ?w1 = _ ∧ _ =>
    destruct (idle_without_timer evs w1 He Hevs) as (wz & E & Ht & Hd2) end.
  exists wz. split; [exact E|]. unfold progress. rewrite Ht, Hd2. cbn.
  split; [reflexivity|exact Hd].
Qed.

Lemma reconnect_keeps_cursor_without_timeout_witness :
  ∃ w', deliverAll [HostDisconnected; HostConnected] world_a_of_ab = Normal w'
    ∧ this w' = this world_a_of_ab
    ∧ keydownListener (env w') = true
    ∧ pendingTimers (env w') = ∅
    ∧ dispatched (env w') = [KonamiProgress 1 2]
    ∧ ∀ evs, Forall (λ ev, is_time_event ev = true) evs ->
        ∃ w'', deliverAll evs w' = Normal w''
          ∧ progress w'' = 1
          ∧ dispatched (env w'') = [KonamiProgress 1 2].
Proof.
  apply (reconnect_keeps_cursor_without_timeout world_a_of_ab).
  exact (Reachable_scenario _ _ _ world_a_of_ab_scenario).
Defined.

(** ** Beyond the claims: the reveal component *)

Lemma reveal_dispatchEvent_spec (fuel : nat) (e : CustomEvent)
      (el : KonamiReveal) :
  2 ≤ fuel ->
  reveal_dispatchEvent fuel e el
  = Some (mkKonamiReveal
            (match ev_name e with
             | konami_activated => true
             | _ => rv_activated el
             end)
            (rv_events el
             ++ e :: (if ev_composed e then []
                      else match ev_name e with
                           | konami_activated => []
                           | konami_progress =>
                               [mkCustomEvent konami_progress (ev_detail e)
                                              true true]
                           | konami_reset =>
                               [mkCustomEvent konami_reset None true true]
                           end))).
Proof.
  intros Hfuel. destruct fuel as [|[|fuel]]; [lia|lia|].
  destruct e as [[| |] detail bubbles [|]]; cbn; try reflexivity.
  all: rewrite <- app_assoc; reflexivity.
Qed.

(** X11. The guard on [composed] ends the re-dispatch after one copy. Whatever
    event is dispatched on the element, two nested dispatches are enough:
    a progress or a reset that is not composed is dispatched once more as
    a bubbling, composed event carrying the same detail, a composed one is
    not dispatched again, and an activation sets [activated] and is never
    dispatched again. More fuel changes nothing. *)
Theorem reveal_redispatches_exactly_once (fuel : nat) (e : CustomEvent)
        (el : KonamiReveal) :
  2 ≤ fuel ->
  ∃ el', reveal_dispatchEvent fuel e el = Some el'
    ∧ reveal_dispatchEvent 2 e el = Some el'
    ∧ rv_activated el'
      = (rv_activated el
         || bool_decide (ev_name e = konami_activated))
    ∧ rv_events el'
      = rv_events el
        ++ e :: (if ev_composed e
                    || bool_decide (ev_name e = konami_activated)
                 then []
                 else [mkCustomEvent (ev_name e)
                         (if bool_decide (ev_name e = konami_progress)
                          then ev_detail e else None)
                         true true]).
Proof.
  intros Hfuel. eexists. split; [apply reveal_dispatchEvent_spec; exact Hfuel|].
  split; [apply reveal_dispatchEvent_spec; lia|].
  destruct e as [[| |] detail bubbles [|]]; cbn;
    rewrite ?orb_true_r, ?orb_false_r; auto.
Qed.

Lemma reveal_redispatches_exactly_once_witness :
  ∃ el', reveal_dispatchEvent 5 (customEvent (KonamiProgress 3 10))
                              (mkKonamiReveal false []) = Some el'
    ∧ reveal_dispatchEvent 2 (customEvent (KonamiProgress 3 10))
                           (mkKonamiReveal false []) = Some el'
    ∧ rv_activated el' = false
    ∧ rv_events el'
      = [mkCustomEvent konami_progress (Some (3, 10)) false false;
         mkCustomEvent konami_progress (Some (3, 10)) true true].
Proof.
  apply (reveal_redispatches_exactly_once 5
           (customEvent (KonamiProgress 3 10)) (mkKonamiReveal false [])).
  lia.
Defined.

(** X12. What the element makes of the notifications of its controller: every
    progress and every reset is followed by one bubbling copy, in order, so
    the bubbling events (what a listener on an ancestor hears) are exactly
    those copies and never an activation; [activated] becomes true as soon
    as one activation has been received and no notification clears it. *)
Theorem reveal_rebroadcasts_progress_and_reset (fuel : nat)
        (ns : list Notification) (el : KonamiReveal) :
  2 ≤ fuel ->
  ∃ el' news,
    reveal_receive fuel ns el = Some el'
    ∧ rv_events el' = rv_events el ++ news
    ∧ news = flat_map (λ n, customEvent n :: redispatched n) ns
    ∧ List.filter ev_bubbles news = flat_map redispatched ns
    ∧ rv_activated el' = (rv_activated el || existsb is_activation ns).
Proof.
  intros Hfuel. revert el. induction ns as [|n ns IH]; intros el.
  - exists el, []. cbn. rewrite app_nil_r, orb_false_r. auto.
  - cbn [reveal_receive].
    rewrite (reveal_dispatchEvent_spec fuel (customEvent n) el Hfuel).
    match goal with |- context [reveal_receive fuel ns ?el1] =>
      destruct (IH el1) as (el' & news & E & Hev & Hnews & Hbub & Hact) end.
    exists el'. eexists. split; [exact E|].
    split; [rewrite Hev; cbn [rv_events]; rewrite <- app_assoc; reflexivity|].
    split; [|split].
    + rewrite Hnews. destruct n; reflexivity.
    + rewrite List.filter_app, Hbub. destruct n; reflexivity.
    + rewrite Hact. destruct n; cbn; rewrite ?orb_true_r; reflexivity.
Qed.

Lemma reveal_rebroadcasts_progress_and_reset_witness :
  ∃ el' news,
    reveal_receive 2 [KonamiProgress 1 1; KonamiActivated; KonamiReset]
                   (mkKonamiReveal false []) = Some el'
    ∧ rv_events el' = [] ++ news
    ∧ news = flat_map (λ n, customEvent n :: redispatched n)
                      [KonamiProgress 1 1; KonamiActivated; KonamiReset]
    ∧ List.filter ev_bubbles news
      = [mkCustomEvent konami_progress (Some (1, 1)) true true;
         mkCustomEvent konami_reset None true true]
    ∧ rv_activated el' = true.
Proof.
  apply (reveal_rebroadcasts_progress_and_reset 2
           [KonamiProgress 1 1; KonamiActivated; KonamiReset]
           (mkKonamiReveal false [])).
  lia.
Defined.

(** ** Beyond the claims: the demo component *)

Lemma demo_listen_follows (N : nat) (ph ph' : Phase) (n : Notification)
      (d : KonamiDemo) :
  follow N ph n = Some ph' ->
  d_progress d = phase_position N ph ->
  d_progress (demo_listen n d) = phase_position N ph'.
Proof.
  intros Hf Hp. destruct ph as [c| |], n as [|p t|]; cbn [follow] in Hf;
    try discriminate.
  - destruct (p =? S c) eqn:E1; [|discriminate].
    destruct (t =? N) eqn:E2; [|discriminate].
    destruct (p <=? N) eqn:E3; [|discriminate]. cbn in Hf.
    injection Hf as <-. cbn [demo_listen]. unfold demo_handleProgress.
    destruct (p =? N) eqn:E4; [apply Nat.eqb_eq in E4|];
      destruct (bool_decide _); cbn; auto.
  - destruct (0 <? c) eqn:E; [|discriminate]. injection Hf as <-.
    cbn in Hp. cbn [demo_listen]. unfold demo_handleReset. rewrite Hp, E.
    reflexivity.
  - injection Hf as <-. cbn in *. exact Hp.
  - injection Hf as <-. cbn [demo_listen]. unfold demo_handleReset.
    destruct (0 <? d_progress d); reflexivity.
Qed.

Lemma demo_listen_activated (n : Notification) (d : KonamiDemo) :
  d_activated (demo_listen n d) = (d_activated d || is_activation n).
Proof.
  destruct n as [|p t|]; cbn [demo_listen is_activation].
  - cbn. rewrite orb_true_r. reflexivity.
  - unfold demo_handleProgress. destruct (bool_decide _); cbn;
      rewrite orb_false_r; reflexivity.
  - unfold demo_handleReset. destruct (0 <? d_progress d); cbn;
      rewrite orb_false_r; reflexivity.
Qed.

Lemma demo_receive_follows (N : nat) (ns : list Notification) :
  ∀ (ph ph' : Phase) (d : KonamiDemo),
    replay N ph ns = Some ph' ->
    d_progress d = phase_position N ph ->
    d_progress (demo_receive ns d) = phase_position N ph'
    ∧ d_activated (demo_receive ns d)
      = (d_activated d || existsb is_activation ns).
Proof.
  induction ns as [|n ns IH]; intros ph ph' d Hr Hp.
  - injection Hr as <-. cbn. rewrite orb_false_r. auto.
  - cbn [replay] in Hr. destruct (follow N ph n) as [ph1|] eqn:E;
      [|discriminate].
    destruct (IH ph1 ph' (demo_listen n d) Hr
                (demo_listen_follows N ph ph1 n d E Hp)) as [H1 H2].
    unfold demo_receive in *. cbn [fold_left existsb].
    split; [exact H1|]. rewrite H2, demo_listen_activated, orb_assoc.
    reflexivity.
Qed.

(** X13. The demo mirrors its controller. A demo whose [progress] is 0 and
    which receives every notification the controller has dispatched since
    its construction shows, after any series of events, a [progress] equal
    to the controller's cursor; its [activated] is true exactly when it
    was so before or an activation has been dispatched. *)
Theorem demo_mirrors_controller (host : Env) (options : option Options)
        (evs : list Event) (d : KonamiDemo) :
  keydownListener host = false ->
  pendingTimers host = ∅ ->
  d_progress d = 0 ->
  ∃ w news,
    scenarioOn host options evs = Normal w
    ∧ dispatched (env w) = dispatched host ++ news
    ∧ d_progress (demo_receive news d) = progress w
    ∧ d_activated (demo_receive news d)
      = (d_activated d || existsb is_activation news).
Proof.
  intros Hl He Hp.
  destruct (scenarioOn_summary host options evs Hl He)
    as (w & news & E & _ & Hd & Hr & _).
  exists w, news. split; [exact E|]. split; [exact Hd|].
  exact (demo_receive_follows _ _ _ _ d Hr Hp).
Qed.

Lemma demo_mirrors_controller_witness :
  ∃ w news,
    scenarioOn freshHost None
               [HostConnected; Keydown (press "ArrowUp");
                Keydown (press "ArrowUp"); Elapse 2500; TimerFires 2;
                Keydown (press "ArrowUp")]
    = Normal w
    ∧ dispatched (env w) = dispatched freshHost ++ news
    ∧ d_progress (demo_receive news (demo_new 1)) = progress w
    ∧ d_activated (demo_receive news (demo_new 1))
      = (d_activated (demo_new 1) || existsb is_activation news).
Proof.
  apply (demo_mirrors_controller freshHost None _ (demo_new 1));
    reflexivity.
Defined.

Lemma demo_completion_burst (N : nat) (d : KonamiDemo) :
  0 < N ->
  let d' := demo_receive [KonamiProgress N N; KonamiActivated; KonamiReset] d in
  let id := S (d_nextTimerId d) in
  d_activated d' = true
  ∧ d_progress d' = 0
  ∧ d_showFeedback d' = true
  ∧ d_feedbackMessage d' = sorryMessage
  ∧ d_feedbackType d' = "timeout"%string
  ∧ d_containerState d' = "timeout"%string
  ∧ d_feedbackTimeout d' = Some id
  ∧ d_timers d' !! id = Some (mkFeedbackTimer "timeout" 2000%Z)
  ∧ d_containerState (demo_feedbackExpires id d') = "normal"%string
  ∧ d_showFeedback (demo_feedbackExpires id d') = false
  ∧ d_activated (demo_feedbackExpires id d') = true.
Proof.
  intros HN d' id. subst d' id.
  unfold demo_receive. cbn [fold_left demo_listen].
  unfold demo_handleReset, demo_handleActivated, demo_handleProgress.
  destruct (bool_decide _); cbn -[Nat.ltb].
  all: replace (0 <? N) with true by (symmetry; apply Nat.ltb_lt; exact HN).
  all: unfold demo_feedbackExpires; cbn.
  all: rewrite !lookup_insert_eq; cbn.
  all: repeat split; reflexivity.
Qed.

(** X14. Entering the whole sequence with the demo listening. Because the
    completing key dispatches a reset after the activation, the demo ends
    activated with its progress at 0, but the feedback it shows is the
    timeout message and the state of its container is "timeout", not
    "success"; the one feedback timer pending is the one of that message,
    and when it expires the container goes back to "normal". *)
Theorem demo_completion_ends_in_timeout_feedback (w : World)
        (d : KonamiDemo) :
  code (this w) ≠ [] ->
  progress w = 0 ->
  ∃ w' news d' id,
    feed (code (this w)) w = Normal w'
    ∧ dispatched (env w') = dispatched (env w) ++ news
    ∧ d' = demo_receive news d
    ∧ d_activated d' = true
    ∧ d_progress d' = 0
    ∧ d_showFeedback d' = true
    ∧ d_feedbackMessage d' = sorryMessage
    ∧ d_feedbackType d' = "timeout"%string
    ∧ d_containerState d' = "timeout"%string
    ∧ d_feedbackTimeout d' = Some id
    ∧ d_timers d' !! id = Some (mkFeedbackTimer "timeout" 2000%Z)
    ∧ d_containerState (demo_feedbackExpires id d') = "normal"%string
    ∧ d_showFeedback (demo_feedbackExpires id d') = false
    ∧ d_activated (demo_feedbackExpires id d') = true.
Proof.
  intros Hne Hp.
  destruct (feed_from (code (this w)) [] w Hne eq_refl Hp)
    as (w' & Hf & _ & Hd).
  assert (HN : 0 < length (code (this w))).
  { destruct (code (this w)); [done|cbn; lia]. }
  destruct (length (code (this w))) as [|m] eqn:Hlen; [lia|].
  cbn [length] in Hd. rewrite seq_S, map_app in Hd.
  cbn [map Nat.add] in Hd.
  rewrite <- app_assoc in Hd. cbn [app] in Hd.
  set (d1 := demo_receive (map (λ i, KonamiProgress i (S m)) (seq 1 m)) d).
  pose proof (demo_completion_burst (S m) d1 HN) as Hb. cbn zeta in Hb.
  eexists w', _, _, _. split; [exact Hf|]. split; [exact Hd|].
  split; [reflexivity|].
  unfold demo_receive. rewrite fold_left_app. fold (demo_receive (map (λ i, KonamiProgress i (S m)) (seq 1 m)) d).
  fold d1.
  exact Hb.
Qed.

Lemma demo_completion_ends_in_timeout_feedback_witness :
  ∃ w' news d' id,
    feed ["a"; "b"]%string world_ab = Normal w'
    ∧ dispatched (env w') = [] ++ news
    ∧ d' = demo_receive news (demo_new 1)
    ∧ d_activated d' = true
    ∧ d_progress d' = 0
    ∧ d_showFeedback d' = true
    ∧ d_feedbackMessage d' = sorryMessage
    ∧ d_feedbackType d' = "timeout"%string
    ∧ d_containerState d' = "timeout"%string
    ∧ d_feedbackTimeout d' = Some id
    ∧ d_timers d' !! id = Some (mkFeedbackTimer "timeout" 2000%Z)
    ∧ d_containerState (demo_feedbackExpires id d') = "normal"%string
    ∧ d_showFeedback (demo_feedbackExpires id d') = false
    ∧ d_activated (demo_feedbackExpires id d') = true.
Proof.
  apply (demo_completion_ends_in_timeout_feedback world_ab (demo_new 1)).
  - discriminate.
  - reflexivity.
Defined.

Lemma demo_showTemporaryFeedback_inv (message type : string)
      (d : KonamiDemo) :
  (∀ id t, d_timers d !! id = Some t -> d_feedbackTimeout d = Some id) ->
  DemoInv (demo_showTemporaryFeedback message type d).
Proof.
  intros Ho.
  assert (Hc : match d_feedbackTimeout d with
               | Some h => delete h (d_timers d)
               | None => d_timers d
               end = ∅).
  { apply map_eq. intros i. rewrite lookup_empty.
    destruct (d_feedbackTimeout d) as [h|] eqn:Eh.
    - destruct (decide (h = i)) as [->|Hne]; [apply lookup_delete_eq|].
      rewrite lookup_delete_ne by done.
      destruct (d_timers d !! i) as [t|] eqn:E; [|done].
      apply Ho in E. congruence.
    - destruct (d_timers d !! i) as [t|] eqn:E; [|done].
      apply Ho in E. congruence. }
  unfold demo_showTemporaryFeedback. rewrite Hc. split; cbn.
  - intros id t [[<- <-]|[_ H]]%lookup_insert_Some; [auto|].
    rewrite lookup_empty in H. discriminate.
  - intros _. eexists _, _. split; [reflexivity|]. apply lookup_insert_eq.
Qed.

Lemma demo_step_inv (ev : DemoEvent) (d : KonamiDemo) :
  DemoInv d -> DemoInv (demo_step ev d).
Proof.
  intros [Ho Hs].
  assert (Ho' : ∀ id t, d_timers d !! id = Some t ->
                        d_feedbackTimeout d = Some id).
  { intros id t H. exact (proj1 (Ho id t H)). }
  destruct ev as [[|p t|]|id|]; cbn [demo_step demo_listen].
  - unfold demo_handleActivated. apply demo_showTemporaryFeedback_inv.
    exact Ho'.
  - unfold demo_handleProgress. destruct (bool_decide _); split; cbn; auto.
    discriminate.
  - unfold demo_handleReset. destruct (0 <? d_progress d).
    + apply demo_showTemporaryFeedback_inv. exact Ho'.
    + split; cbn; auto.
  - unfold demo_feedbackExpires.
    destruct (d_timers d !! id) as [t|] eqn:E; [|split; auto].
    split; cbn.
    + intros id' t' [_ H]%lookup_delete_Some. auto.
    + discriminate.
  - unfold demo_reset. split; cbn; auto. discriminate.
Qed.

Lemma demo_run_inv (evs : list DemoEvent) :
  ∀ d, DemoInv d -> DemoInv (demo_run evs d).
Proof.
  induction evs as [|ev evs IH]; intros d HI; [exact HI|].
  unfold demo_run in *. cbn [fold_left]. apply IH, demo_step_inv, HI.
Qed.

(** X15. The feedback of the demo never sticks. Whatever notifications, timer
    expiries and clicks on "Try Again" the demo has gone through since its
    creation, at most one feedback timer is pending; and whenever a
    feedback is shown, the timer [feedbackTimeout] names is pending, was
    armed for two seconds, and hides the feedback when it expires, leaving
    no timer pending. *)
Theorem demo_feedback_never_sticks (nextId : nat) (evs : list DemoEvent) :
  let d := demo_run evs (demo_new nextId) in
  size (d_timers d) ≤ 1
  ∧ (d_showFeedback d = true ->
     ∃ id t, d_feedbackTimeout d = Some id
       ∧ d_timers d !! id = Some t
       ∧ ft_delay t = 2000%Z
       ∧ d_showFeedback (demo_feedbackExpires id d) = false
       ∧ d_timers (demo_feedbackExpires id d) = ∅).
Proof.
  intros d.
  assert (HI : DemoInv d).
  { apply demo_run_inv. split; cbn; [|discriminate].
    intros id t. rewrite lookup_empty. discriminate. }
  destruct HI as [Ho Hs].
  assert (Hdel : ∀ id, d_feedbackTimeout d = Some id ->
                       delete id (d_timers d) = ∅).
  { intros id Hid. apply map_eq. intros i. rewrite lookup_empty.
    destruct (decide (id = i)) as [->|Hne]; [apply lookup_delete_eq|].
    rewrite lookup_delete_ne by done.
    destruct (d_timers d !! i) as [t|] eqn:E; [|done].
    apply Ho in E as [E _]. congruence. }
  split.
  - destruct (d_feedbackTimeout d) as [id|] eqn:Eid.
    + pose proof (map_size_delete id (d_timers d)) as Hsz.
      rewrite (Hdel id eq_refl), map_size_empty in Hsz.
      destruct (d_timers d !! id); cbn in Hsz; lia.
    + replace (d_timers d) with (∅ : gmap nat FeedbackTimer);
        [rewrite map_size_empty; lia|].
      symmetry. apply map_eq. intros i. rewrite lookup_empty.
      destruct (d_timers d !! i) as [t|] eqn:E; [|done].
      apply Ho in E as [E _]. discriminate.
  - intros Hshown. destruct (Hs Hshown) as (id & t & Hid & Ht).
    exists id, t. split; [exact Hid|]. split; [exact Ht|].
    split; [exact (proj2 (Ho id t Ht))|].
    unfold demo_feedbackExpires. rewrite Ht. cbn.
    split; [reflexivity|exact (Hdel id Hid)].
Qed.
